(** * i18n-scan: key extraction and locale reconciliation (src/scan.ts)

    A shallow embedding of [scan.ts]: the three call patterns and the
    backtracking matcher that runs them, [unescapeString], [extractKeys],
    the locale objects that [runScan] fills in, and [saveLocaleFile]. *)

From Stdlib Require Import NArith Ascii String DecimalString List
  Sorting.Permutation Lia.
From stdpp Require Import base option list gmap sorting.

Open Scope N_scope.

(** ** JavaScript strings

    A JavaScript string is a sequence of 16-bit code units, here numbers
    below 65536; nothing below depends on the bound. *)

Abbreviation code_unit := N (only parsing).
Abbreviation jsstring := (list N) (only parsing).

Definition chr (a : ascii) : code_unit := N_of_ascii a.

(** The JavaScript string holding the ASCII text [s]. *)
Definition str (s : string) : jsstring := map chr (list_ascii_of_string s).

Definition LF : code_unit := 10.          (* line feed, the newline of the source *)
Definition DQUOTE : code_unit := 34.      (* double quote *)
Definition DOLLAR : code_unit := 36.
Definition QUOTE : code_unit := 39.       (* single quote *)
Definition BACKSLASH : code_unit := 92.
Definition BACKTICK : code_unit := 96.

(** [s.includes(t)] for a one-unit [t]. *)
Definition includes (s : jsstring) (c : code_unit) : bool :=
  existsb (N.eqb c) s.

(** ** unescapeString

    [str.replace(/ab/g, r)] for a pattern of two literal code units [a], [b]
    and a one-unit replacement [r] without replacement patterns: the matches
    are found from left to right, each search resuming after the previous
    match. *)
Fixpoint replace_pair (a b r : code_unit) (s : jsstring) : jsstring :=
  match s with
  | x :: (y :: s2) as s1 =>
      if (x =? a) && (y =? b) then r :: replace_pair a b r s2
      else x :: replace_pair a b r s1
  | _ => s
  end.

(** scan.ts, lines 36-38: three global replacements, one after another. *)
Definition unescapeString (s : jsstring) : jsstring :=
  replace_pair BACKSLASH BACKSLASH BACKSLASH
    (replace_pair BACKSLASH DQUOTE DQUOTE
       (replace_pair BACKSLASH QUOTE QUOTE s)).

(** The reference of the specification: one scan from left to right that
    resolves a backslash followed by a single quote, a double quote or a
    backslash to that second character, and copies every other unit. *)
Definition is_escapable (c : code_unit) : bool :=
  (c =? QUOTE) || (c =? DQUOTE) || (c =? BACKSLASH).

Fixpoint unescape_left_to_right (s : jsstring) : jsstring :=
  match s with
  | x :: (y :: s2) as s1 =>
      if (x =? BACKSLASH) && is_escapable y then y :: unescape_left_to_right s2
      else x :: unescape_left_to_right s1
  | _ => s
  end.

(** One scan from left to right that resolves a backslash followed by a
    unit satisfying [esc] to that unit.  The three passes of
    [unescapeString] and the reference scan are all instances; it is the
    common ground on which they are compared. *)
Fixpoint resolve (esc : code_unit → bool) (s : jsstring) : jsstring :=
  match s with
  | x :: (y :: s2) as s1 =>
      if (x =? BACKSLASH) && esc y then y :: resolve esc s2
      else x :: resolve esc s1
  | _ => s
  end.

(** ** Regular expressions

    The patterns of [CALL_PATTERNS] as syntax trees, and the backtracking
    matcher of ECMAScript (ECMA-262, RegExp pattern semantics) that gives
    them their meaning: a matcher takes a state and a continuation, and
    alternatives and greedy repetitions are tried in priority order.  The
    patterns carry no [i], [m], [s] or [u] flag, so units are compared as
    they are and the dot stops at line terminators. *)

Inductive regex :=
| Empty                                (* the empty alternative *)
| Char (c : code_unit)                 (* a literal or an escaped literal *)
| AnyChar                              (* the dot *)
| WhiteSpace                           (* backslash-s *)
| Class (cs : list code_unit)          (* a bracket class *)
| NotClass (cs : list code_unit)       (* a negated bracket class *)
| Seq (r1 r2 : regex)
| Alt (r1 r2 : regex)                  (* r1|r2, r1 first *)
| Star (r : regex)                     (* greedy r* *)
| Plus (r : regex)                     (* greedy r+ *)
| Group (n : nat) (r : regex)          (* the n-th capturing parentheses *)
| BackRef (n : nat)                    (* backslash-n *)
| NegLookahead (r : regex).            (* (?!r) *)

Definition Seqs (rs : list regex) : regex := foldr Seq Empty rs.

Fixpoint lit_units (c : code_unit) (cs : list code_unit) : regex :=
  match cs with
  | [] => Char c
  | c' :: cs' => Seq (Char c) (lit_units c' cs')
  end.

(** A run of literal characters. *)
Definition lit (s : string) : regex :=
  match str s with
  | [] => Empty
  | c :: cs => lit_units c cs
  end.

(** LineTerminator: LF, CR, LS, PS. *)
Definition isLineTerminator (c : code_unit) : bool :=
  bool_decide (c ∈ [10; 13; 8232; 8233]).

(** WhiteSpace: TAB, VT, FF, ZWNBSP and the space separators. *)
Definition isWhiteSpace (c : code_unit) : bool :=
  bool_decide (c ∈ [9; 11; 12; 65279; 32; 160; 5760; 8239; 8287; 12288])
  || ((8192 <=? c) && (c <=? 8202)).

Record MatchState := mkState {
  endIndex : nat;
  captures : list (option (nat * nat))   (* start and end of each group *)
}.

Definition MatchResult := option MatchState.
Definition Continuation := MatchState → MatchResult.
Definition Matcher := MatchState → Continuation → MatchResult.

Fixpoint capture_groups (r : regex) : list nat :=
  match r with
  | Seq r1 r2 | Alt r1 r2 => capture_groups r1 ++ capture_groups r2
  | Star r | Plus r | NegLookahead r => capture_groups r
  | Group n r => n :: capture_groups r
  | _ => []
  end.

Definition clear_captures (gs : list nat) (x : MatchState) : MatchState :=
  mkState (endIndex x) (foldr (λ n caps, <[n := None]> caps) (captures x) gs).

(** The least number of units a match of [r] consumes. *)
Fixpoint min_width (r : regex) : nat :=
  match r with
  | Empty | BackRef _ | NegLookahead _ | Star _ => 0
  | Char _ | AnyChar | WhiteSpace | Class _ | NotClass _ => 1
  | Seq r1 r2 => min_width r1 + min_width r2
  | Alt r1 r2 => min_width r1 `min` min_width r2
  | Plus r | Group _ r => min_width r
  end.

Section Matching.

Variable Input : jsstring.

Definition CharacterSetMatcher (p : code_unit → bool) : Matcher :=
  λ x c,
    match Input !! endIndex x with
    | Some ch =>
        if p ch then c (mkState (S (endIndex x)) (captures x)) else None
    | None => None
    end.

(** A back reference to a group that did not take part matches the empty
    string; otherwise the captured units must follow. *)
Definition BackreferenceMatcher (n : nat) : Matcher :=
  λ x c,
    match captures x !! n with
    | Some (Some (a, b)) =>
        let len := (b - a)%nat in
        let e := endIndex x in
        if bool_decide ((e + len ≤ length Input)%nat
                        ∧ take len (drop a Input) = take len (drop e Input))
        then c (mkState (e + len)%nat (captures x))
        else None
    | _ => c x
    end.

(** RepeatMatcher with max = infinity, greedy.  Once [min] is used up an
    iteration that matches the empty string is refused, so every further
    iteration moves [endIndex] forward and [fuel] above the length of the
    input is never used up. *)
Fixpoint RepeatMatcher (fuel : nat) (m : Matcher) (min : nat)
    (gs : list nat) (x : MatchState) (c : Continuation) : MatchResult :=
  match fuel with
  | O => None
  | S fuel' =>
      let d : Continuation := λ y,
        if (min =? 0)%nat && (endIndex y =? endIndex x)%nat then None
        else RepeatMatcher fuel' m (pred min) gs y c in
      let xr := clear_captures gs x in
      if (min =? 0)%nat then
        match m xr d with
        | Some z => Some z
        | None => c x
        end
      else m xr d
  end.

(** The matcher of a pattern, with [fuel] for its repetitions. *)
Fixpoint compile_fuel (fuel : nat) (r : regex) : Matcher :=
  match r with
  | Empty => λ x c, c x
  | Char ch => CharacterSetMatcher (N.eqb ch)
  | AnyChar => CharacterSetMatcher (λ ch, negb (isLineTerminator ch))
  | WhiteSpace =>
      CharacterSetMatcher (λ ch, isWhiteSpace ch || isLineTerminator ch)
  | Class cs => CharacterSetMatcher (λ ch, bool_decide (ch ∈ cs))
  | NotClass cs => CharacterSetMatcher (λ ch, negb (bool_decide (ch ∈ cs)))
  | Seq r1 r2 => λ x c, compile_fuel fuel r1 x (λ y, compile_fuel fuel r2 y c)
  | Alt r1 r2 => λ x c,
      match compile_fuel fuel r1 x c with
      | Some z => Some z
      | None => compile_fuel fuel r2 x c
      end
  | Star r => RepeatMatcher fuel (compile_fuel fuel r) 0 (capture_groups r)
  | Plus r => RepeatMatcher fuel (compile_fuel fuel r) 1 (capture_groups r)
  | Group n r => λ x c,
      compile_fuel fuel r x (λ y,
        c (mkState (endIndex y)
             (<[n := Some (endIndex x, endIndex y)]> (captures y))))
  | BackRef n => BackreferenceMatcher n
  | NegLookahead r => λ x c,
      match compile_fuel fuel r x Some with
      | Some _ => None
      | None => c x
      end
  end.

(** Two more than the length of the input is enough for every repetition
    ([compile_fuel_enough] below). *)
Definition repeat_fuel : nat := S (S (length Input)).

Definition compile (r : regex) : Matcher := compile_fuel repeat_fuel r.

Definition substring (a b : nat) : jsstring := take (b - a) (drop a Input).

End Matching.

(** A RegExp object with the [g] flag: its pattern, the number of capturing
    groups, and the mutable [lastIndex]. *)
Record RegExp := mkRegExp {
  pattern : regex;
  ngroups : nat;
  lastIndex : nat
}.

(** The array [exec] returns: entry 0 is the whole match, entry n the n-th
    group, [None] where the group took no part ([undefined]). *)
Abbreviation MatchArray := (list (option (list N))) (only parsing).

(** Try the start positions [i], [i+1], ... ([tries] of them). *)
Fixpoint match_from (re : RegExp) (source : jsstring) (tries i : nat)
    : option (nat * MatchState) :=
  match tries with
  | O => None
  | S tries' =>
      match compile source (pattern re)
              (mkState i (replicate (S (ngroups re)) None)) Some with
      | Some y => Some (i, y)
      | None => match_from re source tries' (S i)
      end
  end.

(** [re.exec(source)] for a global RegExp (RegExpBuiltinExec): the search
    starts at [lastIndex]; a match moves [lastIndex] to its end, a failure
    resets it to 0 and returns [null]. *)
Definition exec (re : RegExp) (source : jsstring) : option MatchArray * RegExp :=
  match match_from re source (S (length source) - lastIndex re) (lastIndex re) with
  | Some (i, y) =>
      let caps := <[0%nat := Some (i, endIndex y)]> (captures y) in
      (Some (map (option_map (λ '(a, b), substring source a b)) caps),
       mkRegExp (pattern re) (ngroups re) (endIndex y))
  | None => (None, mkRegExp (pattern re) (ngroups re) 0)
  end.

(** scan.ts, lines 29-33. *)
Definition call_name : regex := Alt (lit "__") (lit "trans").

Definition quoted_content : regex :=
  Plus (Alt (Seq (NegLookahead (Alt (BackRef 1) (Char BACKSLASH))) AnyChar)
            (Seq (Char BACKSLASH) AnyChar)).

Definition call_pattern : RegExp :=
  mkRegExp
    (Seqs [call_name; Char (chr "("); Star WhiteSpace;
           Group 1 (Class [QUOTE; DQUOTE; BACKTICK]);
           Group 2 quoted_content;
           BackRef 1; Star WhiteSpace; Char (chr ")")])
    2 0.

Definition lang_pattern : RegExp :=
  mkRegExp
    (Seqs [lit "@lang"; Char (chr "("); Star WhiteSpace;
           Group 1 (Class [QUOTE; DQUOTE; BACKTICK]);
           Group 2 quoted_content;
           BackRef 1; Star WhiteSpace; Char (chr ")")])
    2 0.

Definition template_pattern : RegExp :=
  mkRegExp
    (Seqs [call_name; Char (chr "("); Star WhiteSpace;
           Char BACKTICK; Group 1 (Plus (NotClass [BACKTICK; DOLLAR]));
           Char BACKTICK; Star WhiteSpace; Char (chr ")")])
    1 0.

Definition CALL_PATTERNS : list RegExp :=
  [call_pattern; lang_pattern; template_pattern].

(** ** extractKeys

    A JavaScript [Set] of strings: its elements without repetition, in
    insertion order (the order in which [for ... of] visits them). *)
Abbreviation JsSet := (list (list N)) (only parsing).

Definition Set_add (k : jsstring) (s : JsSet) : JsSet :=
  if bool_decide (k ∈ s) then s else s ++ [k].

(** [m[2] ?? m[1]] *)
Definition captured_key (m : MatchArray) : option jsstring :=
  match m !! 2%nat with
  | Some (Some k) => Some k
  | _ => match m !! 1%nat with
         | Some (Some k) => Some k
         | _ => None
         end
  end.

(** The body of the [while] loop (line 46-47): an [undefined] or empty key
    is falsy, a key with a newline is skipped. *)
Definition add_match (keys : JsSet) (m : MatchArray) : JsSet :=
  match captured_key m with
  | Some key =>
      if negb (bool_decide (key = [])) && negb (includes key LF)
      then Set_add (unescapeString key) keys
      else keys
  | None => keys
  end.

(** [while ((m = re.exec(source)) !== null) ...]: every match of the
    patterns above is at least one unit long, so [lastIndex] grows with each
    round and the loop ends within [length source + 1] rounds. *)
Fixpoint exec_loop (rounds : nat) (re : RegExp) (source : jsstring)
    (keys : JsSet) : JsSet * RegExp :=
  match rounds with
  | O => (keys, re)
  | S rounds' =>
      match exec re source with
      | (Some m, re') => exec_loop rounds' re' source (add_match keys m)
      | (None, re') => (keys, re')
      end
  end.

(** scan.ts, lines 41-51, on given RegExp objects: the keys and the objects
    as the call leaves them. *)
Fixpoint extractKeys_with (res : list RegExp) (source : jsstring)
    (keys : JsSet) : JsSet * list RegExp :=
  match res with
  | [] => (keys, [])
  | re :: res' =>
      let '(keys', re') := exec_loop (S (length source)) re source keys in
      let '(keys'', res'') := extractKeys_with res' source keys' in
      (keys'', re' :: res'')
  end.

Definition extractKeys (source : jsstring) : JsSet :=
  fst (extractKeys_with CALL_PATTERNS source []).

(** ** Plain objects used as dictionaries

    A [LocaleMap] is a plain object whose prototype is [Object.prototype]
    (an object literal or the result of [JSON.parse]): its own properties,
    all enumerable string-valued data properties, in creation order. *)
Abbreviation LocaleMap := (list (list N * list N)) (only parsing).

(** The property names every plain object inherits from
    [Object.prototype]. *)
Definition Object_prototype_names : list jsstring :=
  map str ["constructor"; "hasOwnProperty"; "isPrototypeOf";
           "propertyIsEnumerable"; "toLocaleString"; "toString"; "valueOf";
           "__proto__"; "__defineGetter__"; "__defineSetter__";
           "__lookupGetter__"; "__lookupSetter__"]%string.

Definition has_own (k : jsstring) (o : LocaleMap) : bool :=
  bool_decide (k ∈ o.*1).

(** [k in o]: an own property or one found on the prototype chain. *)
Definition HasProperty (k : jsstring) (o : LocaleMap) : bool :=
  has_own k o || bool_decide (k ∈ Object_prototype_names).

(** [o[k]] for an own property [k]. *)
Fixpoint get_own (k : jsstring) (o : LocaleMap) : option jsstring :=
  match o with
  | [] => None
  | (k', v) :: o' => if bool_decide (k' = k) then Some v else get_own k o'
  end.

Fixpoint update_own (k v : jsstring) (o : LocaleMap) : LocaleMap :=
  match o with
  | [] => []
  | (k', v') :: o' =>
      if bool_decide (k' = k) then (k', v) :: o' else (k', v') :: update_own k v o'
  end.

(** [o[k] = v] for a string [v]: an own property is overwritten in place;
    [__proto__] is an inherited accessor whose setter ignores a value that
    is not an object; every other name, inherited as a writable data
    property or not found at all, becomes a new own property. *)
Definition Set_property (k v : jsstring) (o : LocaleMap) : LocaleMap :=
  if has_own k o then update_own k v o
  else if bool_decide (k = str "__proto__") then o
  else o ++ [(k, v)].

Definition is_digit (c : code_unit) : bool := (48 <=? c) && (c <=? 57).

Definition decimal_value (s : jsstring) : N :=
  foldl (λ acc c, 10 * acc + (c - 48)) 0 s.

(** An array index: the canonical decimal form of an integer from 0 to
    2^32 - 2. *)
Definition array_index (k : jsstring) : option N :=
  match k with
  | [] => None
  | c :: rest =>
      if forallb is_digit k
         && (negb (c =? 48) || bool_decide (rest = []))
         && (decimal_value k <=? 4294967294)
      then Some (decimal_value k)
      else None
  end.

Section Sorting.

Context {A : Type} (leb : A → A → bool).

Fixpoint insert_sorted (x : A) (l : list A) : list A :=
  match l with
  | [] => [x]
  | y :: l' => if leb x y then x :: l else y :: insert_sorted x l'
  end.

Definition insertion_sort (l : list A) : list A :=
  foldr insert_sorted [] l.

End Sorting.

(** OrdinaryOwnPropertyKeys: the array indices in ascending numeric order,
    then the other names in creation order. *)
Definition OwnPropertyKeys (o : LocaleMap) : list jsstring :=
  let keys := o.*1 in
  let indices := omap (λ k, (λ n, (n, k)) <$> array_index k) keys in
  (insertion_sort (λ a b, a.1 <=? b.1) indices).*2
  ++ filter (λ k, array_index k = None) keys.

(** The order of strings under [<]: unit by unit, a proper prefix first. *)
Fixpoint str_ltb (s t : jsstring) : bool :=
  match s, t with
  | _, [] => false
  | [], _ :: _ => true
  | a :: s', b :: t' => (a <? b) || ((a =? b) && str_ltb s' t')
  end.

Definition str_lt (s t : jsstring) : Prop := str_ltb s t = true.

(** [keys.sort()] without a comparator. *)
Definition Array_sort (keys : list jsstring) : list jsstring :=
  insertion_sort (λ s t, negb (str_ltb t s)) keys.

(** ** JSON.stringify(value, null, 2) on a dictionary *)

Definition hex_digit (n : N) : code_unit :=
  if n <? 10 then 48 + n else 87 + n.

Definition UnicodeEscape (c : code_unit) : jsstring :=
  [BACKSLASH; chr "u"; hex_digit (c / 4096); hex_digit ((c / 256) mod 16);
   hex_digit ((c / 16) mod 16); hex_digit (c mod 16)].

Definition isLeadingSurrogate (c : code_unit) : bool :=
  (55296 <=? c) && (c <=? 56319).
Definition isTrailingSurrogate (c : code_unit) : bool :=
  (56320 <=? c) && (c <=? 57343).

Definition quote_unit (c : code_unit) : jsstring :=
  if c =? 8 then [BACKSLASH; chr "b"]
  else if c =? 9 then [BACKSLASH; chr "t"]
  else if c =? 10 then [BACKSLASH; chr "n"]
  else if c =? 12 then [BACKSLASH; chr "f"]
  else if c =? 13 then [BACKSLASH; chr "r"]
  else if c =? DQUOTE then [BACKSLASH; DQUOTE]
  else if c =? BACKSLASH then [BACKSLASH; BACKSLASH]
  else if (c <? 32) || isLeadingSurrogate c || isTrailingSurrogate c
       then UnicodeEscape c
  else [c].

(** The inside of QuoteJSONString: a surrogate pair is copied, a lone
    surrogate is escaped. *)
Fixpoint quote_units (s : jsstring) : jsstring :=
  match s with
  | [] => []
  | c :: s1 =>
      match s1 with
      | c2 :: s2 =>
          if isLeadingSurrogate c && isTrailingSurrogate c2
          then c :: c2 :: quote_units s2
          else quote_unit c ++ quote_units s1
      | [] => quote_unit c
      end
  end.

Definition QuoteJSONString (s : jsstring) : jsstring :=
  [DQUOTE] ++ quote_units s ++ [DQUOTE].

Definition json_member (o : LocaleMap) (k : jsstring) : jsstring :=
  str "  " ++ QuoteJSONString k ++ str ": "
  ++ QuoteJSONString (default [] (get_own k o)).

Fixpoint join (sep : jsstring) (parts : list jsstring) : jsstring :=
  match parts with
  | [] => []
  | [p] => p
  | p :: parts' => p ++ sep ++ join sep parts'
  end.

Definition JSON_stringify (o : LocaleMap) : jsstring :=
  match OwnPropertyKeys o with
  | [] => str "{}"
  | keys =>
      str "{" ++ [LF] ++ join (str "," ++ [LF]) (json_member o <$> keys)
      ++ [LF] ++ str "}"
  end.

(** ** saveLocaleFile (scan.ts, lines 66-78)

    [Object.keys(obj).sort().reduce((acc, k) => (acc[k] = obj[k], acc), {})] *)
Definition sorted_copy (obj : LocaleMap) : LocaleMap :=
  foldl (λ acc k, Set_property k (default [] (get_own k obj)) acc) []
        (Array_sort (OwnPropertyKeys obj)).

(** The text [out] of line 72. *)
Definition serialize (obj : LocaleMap) : jsstring :=
  JSON_stringify (sorted_copy obj) ++ [LF].

(** The keys of [out] in the order in which they are written. *)
Definition serialized_keys (obj : LocaleMap) : list jsstring :=
  OwnPropertyKeys (sorted_copy obj).

(** The writes to the locale files in the order in which they happen: the
    locale, and the text written to its file.  The file system is taken to
    accept every write. *)
Abbreviation Written := (list (list N * list N)) (only parsing).

Definition saveLocaleFile (locale : jsstring) (obj : LocaleMap) (dry : bool)
    (files : Written) : Written :=
  let out := serialize obj in
  if dry then files else files ++ [(locale, out)].

(** ** runScan (scan.ts, lines 89-160) *)

Inductive Placeholder := copy | empty.

(** The options of a run (lines 6-21).  The globs of [src] are resolved
    outside; [runScan] below takes the contents of the files they name. *)
Record ScanOptions := mkOptions {
  src : list jsstring;
  localesDir : jsstring;
  locales : list jsstring;
  master : jsstring;
  placeholder : Placeholder;
  dry : bool;
  silent : bool
}.

Inductive error :=
| ParseFailure (locale msg : jsstring)   (* thrown by loadLocaleFile *)
| TypeError.                             (* [in] or [Object.keys] on what is no object *)

Definition result (A : Type) : Type := error + A.

(** What [loadLocaleFile] finds at [localesDir/<locale>.json].

    The cast of line 59 takes whatever [JSON.parse] returns for a
    [LocaleMap].  The files described here are those for which that is so:
    a file that holds JSON text holds an object whose values are all
    strings.  JSON text of another shape ([null], a number, a string, an
    array, an object with a value that is no string) parses as well, runs
    through [runScan] in ways of its own and has no case here; a statement
    about [runScan] below is a statement about locale files that are
    missing, empty, not parseable, or hold an object of strings. *)
Inductive LocaleFile :=
| NoFile
| EmptyFile
| JsonObject (d : LocaleMap)      (* JSON text of an object of strings *)
| Malformed (msg : jsstring).     (* text that JSON.parse rejects, or a file
                                     that cannot be read: [msg] is the
                                     message of the error caught *)

Definition LocaleStore := jsstring → LocaleFile.


(** scan.ts, lines 54-63. *)
Definition loadLocaleFile (store : LocaleStore) (locale : jsstring)
    : result LocaleMap :=
  match store locale with
  | NoFile => inr []
  | EmptyFile => inr []
  | JsonObject d => inr d
  | Malformed msg => inl (ParseFailure locale msg)
  end.

(** A [for ... of] loop over a list whose body may throw. *)
Fixpoint for_of {A S : Type} (body : S → A → result S) (xs : list A) (st : S)
    : result S :=
  match xs with
  | [] => inr st
  | x :: xs' =>
      match body st x with
      | inl e => inl e
      | inr st' => for_of body xs' st'
      end
  end.

(** The variables the reconciliation loop works on.  [localeData] holds
    the dictionaries the loop reaches through the object of that name, by
    locale: each locale has a dictionary object of its own, shared with
    nothing else ([dictionaries] below gives them for the object that
    [runScan] has loaded).  [perLocaleCounts] is made by
    [Object.fromEntries], with a property of its own for every locale. *)
Record ScanState := mkScan {
  localeData : gmap jsstring LocaleMap;
  addedTotal : nat;
  perLocaleCounts : gmap jsstring nat
}.

(** The object [localeData] of line 127, a plain object made by [{}]: its
    own properties, each a loaded dictionary, and its prototype, which is
    [Object.prototype] until an assignment to [__proto__] replaces it by a
    loaded dictionary. *)
Record LocaleObject := mkLocales {
  own_locales : gmap jsstring LocaleMap;
  prototype_locale : option LocaleMap     (* [None]: [Object.prototype] *)
}.

(** [localeData[loc] = d] for a dictionary [d] (line 129).  The name
    [__proto__] is looked up along the prototype chain: an own property of
    that name is overwritten; a prototype that has the name as a property
    of its own, a string, makes the assignment create an own property;
    otherwise the setter of [Object.prototype] runs and makes [d] the
    prototype.  Any other name becomes, or stays, an own property. *)
Definition assign_locale (loc : jsstring) (d : LocaleMap) (o : LocaleObject)
    : LocaleObject :=
  if bool_decide (loc = str "__proto__")
     && negb (bool_decide (is_Some (own_locales o !! loc)))
     && negb (match prototype_locale o with
              | Some p => has_own loc p
              | None => false
              end)
  then mkLocales (own_locales o) (Some d)
  else mkLocales (<[loc := d]> (own_locales o)) (prototype_locale o).

(** What [localeData[loc]] can be once [loc] has been assigned: one of the
    loaded dictionaries, or a string. *)
Inductive LocaleValue :=
| Dictionary (d : LocaleMap)
| Primitive (v : jsstring).

(** [localeData[loc]] (lines 137 and 151): an own property; else a
    property of the dictionary that is the prototype, a string; else, for
    [__proto__], what the getter of [Object.prototype] returns, the
    prototype itself.  [None] stands for what a name that was never
    assigned reads as; the loops read assigned names only. *)
Definition read_locale (o : LocaleObject) (loc : jsstring)
    : option LocaleValue :=
  match own_locales o !! loc with
  | Some d => Some (Dictionary d)
  | None =>
      match prototype_locale o with
      | Some p =>
          match get_own loc p with
          | Some v => Some (Primitive v)
          | None =>
              if bool_decide (loc = str "__proto__")
              then Some (Dictionary p) else None
          end
      | None => None
      end
  end.

(** Lines 127-130. *)
Definition load_step (store : LocaleStore) (o : LocaleObject)
    (loc : jsstring) : result LocaleObject :=
  match loadLocaleFile store loc with
  | inl e => inl e
  | inr d => inr (assign_locale loc d o)
  end.

Definition load_all (store : LocaleStore) (locs : list jsstring)
    : result LocaleObject :=
  for_of (load_step store) locs (mkLocales ∅ None).

(** The dictionary that [localeData[loc]] is, if it is one. *)
Definition dictionary_of (o : LocaleObject) (loc : jsstring)
    : option LocaleMap :=
  match read_locale o loc with
  | Some (Dictionary d) => Some d
  | _ => None
  end.

(** The dictionaries the loops of lines 133-152 reach through
    [localeData], by locale.  Every load makes an object of its own, so
    they share nothing; a locale whose value is no dictionary has no
    entry. *)
Definition dictionaries (o : LocaleObject) (locs : list jsstring)
    : gmap jsstring LocaleMap :=
  foldr (λ loc m, match dictionary_of o loc with
                  | Some d => <[loc := d]> m
                  | None => m
                  end) ∅ locs.

(** Line 140. *)
Definition new_value (loc mst : jsstring) (ph : Placeholder) (key : jsstring)
    : jsstring :=
  if bool_decide (loc = mst) then key
  else match ph with copy => key | empty => [] end.

(** Lines 138-143, the body of the inner loop. *)
Definition visit (mst : jsstring) (ph : Placeholder) (key : jsstring)
    (st : ScanState) (loc : jsstring) : result ScanState :=
  match localeData st !! loc with
  | None => inl TypeError
  | Some dict =>
      if HasProperty key dict then inr st
      else inr (mkScan
                  (<[loc := Set_property key (new_value loc mst ph key) dict]>
                     (localeData st))
                  (S (addedTotal st))
                  (alter S loc (perLocaleCounts st)))
  end.

(** Lines 133-145: the counters start at zero and every found key is
    offered to every locale. *)
Definition reconcile (foundKeys : JsSet) (locs : list jsstring)
    (mst : jsstring) (ph : Placeholder) (data : gmap jsstring LocaleMap)
    : result ScanState :=
  for_of (λ st key, for_of (visit mst ph key) locs st) foundKeys
         (mkScan data 0 (list_to_map ((λ l, (l, 0%nat)) <$> locs))).

(** Lines 113-122: the keys of all readable files, [None] standing for a
    file that could not be read. *)
Definition collect_keys (contents : list (option jsstring)) : JsSet :=
  foldl (λ found content,
           match content with
           | Some text => foldl (λ acc k, Set_add k acc) found (extractKeys text)
           | None => found
           end) [] contents.

Record ScanResult := mkResult {
  filesScanned : nat;
  keysFound : nat;
  added : nat;
  perLocaleCountsOut : gmap jsstring nat
}.

(** The decimal numeral of [n]. *)
Definition decimal (n : nat) : jsstring :=
  str (NilZero.string_of_uint (Nat.to_uint n)).

(** What [Object.keys] and [obj[k]] see of a string: one property per
    code unit, named by its index. *)
Definition String_object (v : jsstring) : LocaleMap :=
  imap (λ i c, (decimal i, [c])) v.

(** Lines 150-152, with [data] the dictionaries as reconciled and [o] the
    object they were loaded into.  A locale whose value is a string is
    saved as the object of its code units. *)
Definition save_step (opts : ScanOptions) (o : LocaleObject)
    (data : gmap jsstring LocaleMap) (files : Written) (loc : jsstring)
    : result Written :=
  match data !! loc with
  | Some obj => inr (saveLocaleFile loc obj (dry opts) files)
  | None =>
      match read_locale o loc with
      | Some (Primitive v) =>
          inr (saveLocaleFile loc (String_object v) (dry opts) files)
      | _ => inl TypeError
      end
  end.

Definition save_all (opts : ScanOptions) (o : LocaleObject)
    (data : gmap jsstring LocaleMap) : result Written :=
  for_of (save_step opts o data) (locales opts) [].

(** [runScan] on the contents of the files the globs resolve to and on the
    locale files: the result, the dictionaries as reconciled, and the text
    written to each locale file.  The reconciliation loop throws where
    [localeData[loc]] is no dictionary: [visit] finds no entry for it. *)
Definition runScan (opts : ScanOptions) (contents : list (option jsstring))
    (store : LocaleStore)
    : result (ScanResult * gmap jsstring LocaleMap * Written) :=
  let foundKeys := collect_keys contents in
  match load_all store (locales opts) with
  | inl e => inl e
  | inr o =>
      match reconcile foundKeys (locales opts) (master opts)
              (placeholder opts) (dictionaries o (locales opts)) with
      | inl e => inl e
      | inr st =>
          match save_all opts o (localeData st) with
          | inl e => inl e
          | inr files =>
              inr (mkResult (length contents) (length foundKeys)
                     (addedTotal st) (perLocaleCounts st),
                   localeData st, files)
          end
      end
  end.

Definition no_newline (k : jsstring) : Prop := includes k LF = false.


(** ** What reconciliation computes, dictionary by dictionary

    The nested loop of [reconcile] offers every key to every locale; seen
    from one locale, its dictionary is run through the keys once.  These
    two functions say so; the theorems compare [reconcile] with them. *)
Definition add_missing (loc mst : jsstring) (ph : Placeholder)
    (d : LocaleMap) (key : jsstring) : LocaleMap :=
  if HasProperty key d then d
  else Set_property key (new_value loc mst ph key) d.

Definition merged (loc mst : jsstring) (ph : Placeholder)
    (keys : list jsstring) (d : LocaleMap) : LocaleMap :=
  foldl (add_missing loc mst ph) d keys.

(** ** The command line (dist, lines 126-184 of scan.js: the caller of
    [runScan])

    [s.startsWith(prefix)] *)
Definition startsWith (s prefix : jsstring) : bool :=
  bool_decide (take (length prefix) s = prefix).

Definition EQUALS : code_unit := 61.
Definition COMMA : code_unit := 44.

(** [s.split(sep)] for a separator of one unit: the pieces between the
    separators, at least one. *)
Fixpoint split (sep : code_unit) (s : jsstring) : list jsstring :=
  match s with
  | [] => [[]]
  | c :: s' =>
      if c =? sep then [] :: split sep s'
      else match split sep s' with
           | w :: ws => (c :: w) :: ws
           | [] => [[c]]
           end
  end.

(** What [getArg(name, def)] returns: [def], [true], or a string. *)
Inductive ArgValue :=
| ArgDefault
| ArgTrue
| ArgText (s : jsstring).

(** The test of [findIndex]: [a === name || a.startsWith(name + "=")]. *)
Definition names_flag (name a : jsstring) : bool :=
  bool_decide (a = name) || startsWith a (name ++ [EQUALS]).

(** Lines 129-138, on the arguments [args]: the first argument that names
    the flag decides. *)
Fixpoint getArg (args : list jsstring) (name : jsstring) : ArgValue :=
  match args with
  | [] => ArgDefault
  | a :: args' =>
      if names_flag name a then
        if includes a EQUALS
        then ArgText (join [EQUALS] (tail (split EQUALS a)))
        else match args' with
             | next :: _ =>
                 if negb (bool_decide (next = []))
                    && negb (startsWith next (str "--"))
                 then ArgText next else ArgTrue
             | [] => ArgTrue
             end
      else getArg args' name
  end.

(** [String(getArg(name, def))] for a string [def]. *)
Definition String_of (def : jsstring) (v : ArgValue) : jsstring :=
  match v with
  | ArgDefault => def
  | ArgTrue => str "true"
  | ArgText s => s
  end.

(** [Boolean(getArg(name, false))]: only the empty string is falsy. *)
Definition Boolean_of (v : ArgValue) : bool :=
  match v with
  | ArgDefault => false
  | ArgTrue => true
  | ArgText s => negb (bool_decide (s = []))
  end.

Fixpoint trimStart (s : jsstring) : jsstring :=
  match s with
  | c :: s' => if isWhiteSpace c || isLineTerminator c then trimStart s' else s
  | [] => []
  end.

(** [s.trim()] *)
Definition trim (s : jsstring) : jsstring :=
  reverse (trimStart (reverse (trimStart s))).

(** The placeholder as line 140 reads it: the string [copy], or anything
    else, which it treats like [empty]. *)
Definition placeholder_of (s : jsstring) : Placeholder :=
  if bool_decide (s = str "copy") then copy else empty.

(** Lines 162-176: the options that the command line hands to [runScan],
    once it has got past the test for help below. *)
Definition cli_options (args : list jsstring) : ScanOptions :=
  mkOptions
    (trim <$> split COMMA
       (String_of
          (str "app/**/*.php,resources/**/*.php,resources/**/*.blade.php,resources/**/*.{js,jsx,ts,tsx,vue}")
          (getArg args (str "--src"))))
    (String_of (str "resources/lang") (getArg args (str "--localesDir")))
    (trim <$> split COMMA
       (String_of (str "en,de") (getArg args (str "--locales"))))
    (String_of (str "en") (getArg args (str "--master")))
    (placeholder_of (String_of (str "copy") (getArg args (str "--placeholder"))))
    (Boolean_of (getArg args (str "--dry")))
    (Boolean_of (getArg args (str "--silent"))).

(** Lines 158-161: [-h] or [--help] anywhere among the arguments. *)
Definition wants_help (args : list jsstring) : bool :=
  bool_decide (str "-h" ∈ args) || bool_decide (str "--help" ∈ args).

(** Lines 158-176, the command line as a whole: it prints the help and
    exits, [None], or calls [runScan] with the options it has read. *)
Definition cli (args : list jsstring) : option ScanOptions :=
  if wants_help args then None else Some (cli_options args).

(** The sum of the per-locale counters. *)
Definition sum_counts (m : gmap jsstring nat) : nat :=
  map_fold (λ _ n acc, (n + acc)%nat) 0%nat m.

(** * Theorems *)

Section Unescape.

Lemma resolve_cons2 esc x y s :
  resolve esc (x :: y :: s) =
  if (x =? BACKSLASH) && esc y then y :: resolve esc s
  else x :: resolve esc (y :: s).
Proof. reflexivity. Qed.

Lemma replace_pair_cons2 a b r x y s :
  replace_pair a b r (x :: y :: s) =
  if (x =? a) && (y =? b) then r :: replace_pair a b r s
  else x :: replace_pair a b r (y :: s).
Proof. reflexivity. Qed.

Lemma resolve_other esc x s :
  x ≠ BACKSLASH → resolve esc (x :: s) = x :: resolve esc s.
Proof.
  intros Hx. destruct s as [|y s]; [done|]. simpl.
  apply N.eqb_neq in Hx. by rewrite Hx.
Qed.

Lemma resolve_hit esc y s :
  esc y = true → resolve esc (BACKSLASH :: y :: s) = y :: resolve esc s.
Proof. intros Hy. by rewrite resolve_cons2, N.eqb_refl, Hy. Qed.

Lemma resolve_keep esc y s :
  esc y = false →
  resolve esc (BACKSLASH :: y :: s) = BACKSLASH :: resolve esc (y :: s).
Proof. intros Hy. by rewrite resolve_cons2, N.eqb_refl, Hy. Qed.

Lemma resolve_ext esc1 esc2 s :
  (∀ c, esc1 c = esc2 c) → resolve esc1 s = resolve esc2 s.
Proof.
  intros Hext. remember (length s) as n eqn:Hn.
  revert s Hn. induction (lt_wf n) as [n _ IH]. intros s ->.
  destruct s as [|x [|y s]]; [done..|].
  rewrite !resolve_cons2, Hext.
  destruct (_ && _).
  - f_equal. eapply IH; [|done]. simpl. lia.
  - f_equal. eapply IH; [|done]. simpl. lia.
Qed.

(** Each pass of [unescapeString] is a left-to-right scan for one
    escaped unit. *)
Lemma replace_pair_resolve b s :
  replace_pair BACKSLASH b b s = resolve (N.eqb b) s.
Proof.
  remember (length s) as n eqn:Hn.
  revert s Hn. induction (lt_wf n) as [n _ IH]. intros s ->.
  destruct s as [|x [|y s]]; [done..|].
  rewrite replace_pair_cons2, resolve_cons2, (N.eqb_sym b y).
  destruct (x =? BACKSLASH) eqn:Hx; cbn [andb].
  - destruct (y =? b) eqn:Hy.
    + apply N.eqb_eq in Hy as ->. f_equal. eapply IH; [|done]. simpl. lia.
    + f_equal. eapply IH; [|done]. simpl. lia.
  - f_equal. eapply IH; [|done]. simpl. lia.
Qed.

(** What a scan leaves at the head of a string that starts with a
    backslash: the backslash, or the unit it escaped. *)
Lemma resolve_backslash_head esc s :
  ∃ h t, resolve esc (BACKSLASH :: s) = h :: t ∧ (h = BACKSLASH ∨ esc h = true).
Proof.
  destruct s as [|y s].
  - exists BACKSLASH, []. by split; [|left].
  - destruct (esc y) eqn:Hy.
    + exists y, (resolve esc s). split; [by apply resolve_hit|by right].
    + exists BACKSLASH, (resolve esc (y :: s)).
      split; [by apply resolve_keep|by left].
Qed.

(** Two scans in a row are one scan for both sets of escapes, as long as
    the first does not resolve escaped backslashes and the second does
    not resolve what the first one did. *)
Lemma resolve_compose esc1 esc2 s :
  esc1 BACKSLASH = false →
  (∀ c, esc1 c = true → esc2 c = false) →
  resolve esc2 (resolve esc1 s) = resolve (λ c, esc1 c || esc2 c) s.
Proof.
  intros Hbs Hdisj. remember (length s) as n eqn:Hn.
  revert s Hn. induction (lt_wf n) as [n _ IH]. intros s ->.
  assert (IH' : ∀ t, (length t < length s)%nat →
    resolve esc2 (resolve esc1 t) = resolve (λ c, esc1 c || esc2 c) t).
  { intros t Ht. by eapply IH. }
  clear IH. destruct s as [|x s]; [done|].
  destruct (decide (x = BACKSLASH)) as [->|Hx].
  2:{ rewrite !resolve_other by done. f_equal. apply IH'. simpl. lia. }
  destruct s as [|y s]; [done|].
  destruct (esc1 y) eqn:H1.
  { assert (y ≠ BACKSLASH) by congruence.
    rewrite resolve_hit by done. rewrite resolve_other by done.
    rewrite resolve_hit by (by rewrite H1).
    f_equal. apply IH'. simpl. lia. }
  rewrite (resolve_keep esc1) by done.
  destruct (decide (y = BACKSLASH)) as [->|Hy].
  - destruct (esc2 BACKSLASH) eqn:H2.
    + rewrite (resolve_hit (λ c, _)) by (by rewrite H1, H2).
      destruct s as [|z s]; [by cbn; rewrite H2|].
      destruct (esc1 z) eqn:H1z.
      * assert (z ≠ BACKSLASH) by congruence.
        rewrite (resolve_hit esc1) by done.
        rewrite (resolve_keep esc2) by auto.
        rewrite !resolve_other by done.
        do 2 f_equal. apply IH'. simpl. lia.
      * rewrite (resolve_keep esc1) by done.
        rewrite (resolve_hit esc2) by done.
        f_equal. apply IH'. simpl. lia.
    + rewrite (resolve_keep (λ c, _)) by (by rewrite H1, H2).
      destruct (resolve_backslash_head esc1 s) as (h & t & Heq & Hh).
      rewrite Heq. rewrite (resolve_keep esc2).
      * rewrite <- Heq. f_equal. apply IH'. simpl. lia.
      * destruct Hh as [->|Hh]; auto.
  - rewrite (resolve_other esc1) by done.
    destruct (esc2 y) eqn:H2.
    + rewrite (resolve_hit esc2) by done.
      rewrite (resolve_hit (λ c, _)) by (by rewrite H1, H2).
      f_equal. apply IH'. simpl. lia.
    + rewrite (resolve_keep esc2) by done.
      rewrite (resolve_keep (λ c, _)) by (by rewrite H1, H2).
      rewrite <- (resolve_other esc1 y s) by done.
      f_equal. apply IH'. simpl. lia.
Qed.

Lemma unescape_left_to_right_resolve s :
  unescape_left_to_right s = resolve is_escapable s.
Proof.
  remember (length s) as n eqn:Hn.
  revert s Hn. induction (lt_wf n) as [n _ IH]. intros s ->.
  destruct s as [|x [|y s]]; [done..|].
  rewrite resolve_cons2.
  change (unescape_left_to_right (x :: y :: s)) with
    (if (x =? BACKSLASH) && is_escapable y then y :: unescape_left_to_right s
     else x :: unescape_left_to_right (y :: s)).
  destruct (_ && _).
  - f_equal. eapply IH; [|done]. simpl. lia.
  - f_equal. eapply IH; [|done]. simpl. lia.
Qed.

End Unescape.

(** C8. The three global replacements of [unescapeString], run one after
    another, give for every captured content exactly what one left-to-right
    scan resolving backslash-quote, backslash-double-quote and
    backslash-backslash gives. *)
Theorem unescapeString_left_to_right (s : jsstring) :
  unescapeString s = unescape_left_to_right s.
Proof.
  unfold unescapeString. rewrite !replace_pair_resolve.
  rewrite (resolve_compose (N.eqb QUOTE) (N.eqb DQUOTE)); [|done|].
  2:{ intros c Hc. apply N.eqb_eq in Hc as <-. done. }
  rewrite resolve_compose; [|done|].
  2:{ intros c Hc. apply orb_true_iff in Hc as [Hc|Hc];
        apply N.eqb_eq in Hc as <-; done. }
  rewrite unescape_left_to_right_resolve. apply resolve_ext.
  intros c. unfold is_escapable. by rewrite !(N.eqb_sym c).
Qed.

Section Objects.

Implicit Types (k v : jsstring) (o d : LocaleMap).

Lemma has_own_get k o : has_own k o = true ↔ is_Some (get_own k o).
Proof.
  unfold has_own. rewrite bool_decide_eq_true.
  induction o as [|[k' v'] o IH]; simpl.
  - split; [by intros ?%elem_of_nil|by intros [? ?]].
  - rewrite elem_of_cons. case_bool_decide; subst.
    + split; eauto.
    + rewrite IH. split; [by intros [?|?]|by right].
Qed.

Lemma has_own_false_get k o : has_own k o = false ↔ get_own k o = None.
Proof.
  rewrite <- not_true_iff_false, has_own_get, eq_None_not_Some. done.
Qed.

Lemma get_own_app k o1 o2 :
  get_own k (o1 ++ o2) =
  match get_own k o1 with Some v => Some v | None => get_own k o2 end.
Proof.
  induction o1 as [|[k' v'] o1 IH]; simpl; [done|].
  by case_bool_decide.
Qed.

Lemma has_own_app k o1 o2 :
  has_own k (o1 ++ o2) = has_own k o1 || has_own k o2.
Proof.
  unfold has_own. rewrite fmap_app.
  apply eq_true_iff_eq.
  rewrite orb_true_iff, !bool_decide_eq_true, elem_of_app. done.
Qed.

(** A name that is not found by [in] is neither own nor [__proto__], so
    assigning to it creates a property at the end. *)
Lemma Set_property_absent k v o :
  HasProperty k o = false → Set_property k v o = o ++ [(k, v)].
Proof.
  unfold HasProperty, Set_property. intros [Hown Hproto]%orb_false_elim.
  rewrite Hown. apply bool_decide_eq_false in Hproto.
  case_bool_decide as Hk; [|done].
  exfalso. apply Hproto. rewrite Hk. vm_compute.
  repeat first [apply list_elem_of_here | apply list_elem_of_further].
Qed.

End Objects.

Section Reconcile.

Variables (mst : jsstring) (ph : Placeholder).

Implicit Types (loc key : jsstring) (d : LocaleMap) (st : ScanState).

Lemma add_missing_eq loc d key :
  add_missing loc mst ph d key =
  if HasProperty key d then d else d ++ [(key, new_value loc mst ph key)].
Proof.
  unfold add_missing. destruct (HasProperty key d) eqn:H; [done|].
  by apply Set_property_absent.
Qed.

Lemma HasProperty_app k d1 d2 :
  HasProperty k d1 = true → HasProperty k (d1 ++ d2) = true.
Proof.
  unfold HasProperty. rewrite has_own_app.
  intros [H|H]%orb_true_iff; [by rewrite H|by rewrite H, orb_true_r].
Qed.

Lemma HasProperty_add_missing_same loc d key :
  HasProperty key (add_missing loc mst ph d key) = true.
Proof.
  rewrite add_missing_eq. destruct (HasProperty key d) eqn:H; [done|].
  unfold HasProperty. rewrite has_own_app.
  assert (has_own key [(key, new_value loc mst ph key)] = true) as ->.
  { unfold has_own. apply bool_decide_eq_true. simpl. apply list_elem_of_here. }
  by rewrite orb_true_r.
Qed.

Lemma HasProperty_add_missing_mono loc d key k :
  HasProperty k d = true → HasProperty k (add_missing loc mst ph d key) = true.
Proof.
  intros H. rewrite add_missing_eq. destruct (HasProperty key d); [done|].
  by apply HasProperty_app.
Qed.

Lemma add_missing_idem loc d key :
  add_missing loc mst ph (add_missing loc mst ph d key) key =
  add_missing loc mst ph d key.
Proof.
  unfold add_missing at 1. by rewrite HasProperty_add_missing_same.
Qed.

Lemma HasProperty_merged_mono loc keys d k :
  HasProperty k d = true → HasProperty k (merged loc mst ph keys d) = true.
Proof.
  unfold merged. revert d. induction keys as [|key keys IH]; intros d H; [done|].
  simpl. apply IH. by apply HasProperty_add_missing_mono.
Qed.

Lemma HasProperty_merged loc keys d k :
  k ∈ keys → HasProperty k (merged loc mst ph keys d) = true.
Proof.
  unfold merged. revert d. induction keys as [|key keys IH]; intros d.
  - by intros ?%elem_of_nil.
  - intros [->|Hin]%elem_of_cons; simpl.
    + apply (HasProperty_merged_mono loc keys). apply HasProperty_add_missing_same.
    + by apply IH.
Qed.

(** A dictionary only grows at its end, by names it did not have. *)
Lemma merged_extends loc keys d :
  ∃ extra, merged loc mst ph keys d = d ++ extra
           ∧ ∀ k, k ∈ extra.*1 → HasProperty k d = false ∧ k ∈ keys.
Proof.
  unfold merged. revert d. induction keys as [|key keys IH]; intros d; simpl.
  - exists []. split; [by rewrite app_nil_r|]. by intros k ?%elem_of_nil.
  - destruct (IH (add_missing loc mst ph d key)) as (extra & -> & Hex).
    rewrite add_missing_eq in *. destruct (HasProperty key d) eqn:Hk.
    + exists extra. split; [done|]. intros k Hin.
      destruct (Hex k Hin). split; [done|]. by apply list_elem_of_further.
    + exists ((key, new_value loc mst ph key) :: extra).
      split; [by rewrite <- app_assoc|].
      intros k [->|Hin]%elem_of_cons.
      * split; [done|apply list_elem_of_here].
      * destruct (Hex k Hin) as [Hn ?]. split; [|by apply list_elem_of_further].
        destruct (HasProperty k d) eqn:Hkd; [|done].
        by rewrite (HasProperty_app _ _ _ Hkd) in Hn.
Qed.

(** The value of every name in a reconciled dictionary, in closed form. *)
Lemma get_own_merged loc keys d k :
  get_own k (merged loc mst ph keys d) =
  match get_own k d with
  | Some v => Some v
  | None =>
      if bool_decide (k ∈ keys ∧ k ∉ Object_prototype_names)
      then Some (new_value loc mst ph k) else None
  end.
Proof.
  unfold merged. revert d.
  induction keys as [|key keys IH]; intros d; cbn [foldl].
  - destruct (get_own k d); [done|]. rewrite bool_decide_eq_false_2; [done|].
    intros [?%elem_of_nil _]. done.
  - rewrite IH, add_missing_eq. destruct (HasProperty key d) eqn:Hk.
    + destruct (get_own k d) eqn:Hg; [done|].
      erewrite bool_decide_ext; [done|]. rewrite elem_of_cons.
      split; [by intros [? ?]; split; [right|]|]. intros [[->|?] Hp]; [|done].
      exfalso. unfold HasProperty in Hk. apply orb_true_iff in Hk as [Hk|Hk].
      * apply has_own_get in Hk as [? ?]. congruence.
      * by apply bool_decide_eq_true in Hk.
    + rewrite get_own_app. destruct (get_own k d) eqn:Hg; [done|].
      cbn [get_own].
      unfold HasProperty in Hk. apply orb_false_elim in Hk as [_ Hk].
      apply bool_decide_eq_false in Hk.
      destruct (decide (key = k)) as [->|Hne].
      * rewrite bool_decide_eq_true_2 by done.
        rewrite (bool_decide_eq_true_2 (_ ∈ _ :: _ ∧ _)); [done|].
        split; [apply list_elem_of_here|done].
      * rewrite (bool_decide_eq_false_2 (key = k)) by done.
        erewrite bool_decide_ext; [done|]. rewrite elem_of_cons.
        split; [by intros [? ?]; split; [right|]|].
        intros [[?|?] ?]; [congruence|done].
Qed.

(** One round of the inner loop body. *)
Lemma visit_spec key st loc dict :
  localeData st !! loc = Some dict →
  ∃ st', visit mst ph key st loc = inr st'
         ∧ localeData st' = <[loc := add_missing loc mst ph dict key]> (localeData st).
Proof.
  intros Hd. unfold visit, add_missing. rewrite Hd.
  destruct (HasProperty key dict).
  - exists st. split; [done|]. by rewrite insert_id.
  - eexists. split; [done|]. done.
Qed.

Lemma visit_noop key st loc dict :
  localeData st !! loc = Some dict → HasProperty key dict = true →
  visit mst ph key st loc = inr st.
Proof. intros Hd Hk. unfold visit. by rewrite Hd, Hk. Qed.

(** The inner loop: every listed locale gets the key if it misses it. *)
Lemma inner_loop key locs st :
  Forall (λ l, is_Some (localeData st !! l)) locs →
  ∃ st', for_of (visit mst ph key) locs st = inr st'
    ∧ ∀ loc, localeData st' !! loc =
        (λ d, if bool_decide (loc ∈ locs) then add_missing loc mst ph d key else d)
          <$> localeData st !! loc.
Proof.
  revert st. induction locs as [|l locs IH]; intros st Hdom.
  - exists st. split; [done|]. intros loc.
    rewrite bool_decide_eq_false_2 by apply not_elem_of_nil.
    by destruct (localeData st !! loc).
  - apply Forall_cons in Hdom as [[dict Hd] Hdom]. cbn [for_of].
    destruct (visit_spec key st l dict Hd) as (st1 & -> & Hst1).
    destruct (IH st1) as (st' & -> & Hst').
    { eapply Forall_impl; [exact Hdom|]. intros l' Hl'. cbn in Hl'.
      rewrite Hst1. destruct (decide (l = l')) as [->|?].
      - rewrite lookup_insert_eq. eauto.
      - by rewrite lookup_insert_ne. }
    exists st'. split; [done|]. intros loc. rewrite Hst', Hst1.
    destruct (decide (l = loc)) as [->|Hne].
    + rewrite lookup_insert_eq, Hd. cbn [fmap option_fmap option_map].
      rewrite (bool_decide_eq_true_2 (loc ∈ loc :: locs)) by apply list_elem_of_here.
      f_equal. case_bool_decide; [apply add_missing_idem|done].
    + rewrite lookup_insert_ne by done.
      destruct (localeData st !! loc); [|done].
      cbn [fmap option_fmap option_map]. f_equal.
      erewrite bool_decide_ext; [done|]. rewrite elem_of_cons.
      split; [by right|]. intros [?|?]; [congruence|done].
Qed.

(** The outer loop: every listed locale is run through the keys. *)
Lemma outer_loop keys locs st :
  Forall (λ l, is_Some (localeData st !! l)) locs →
  ∃ st', for_of (λ st key, for_of (visit mst ph key) locs st) keys st = inr st'
    ∧ ∀ loc, localeData st' !! loc =
        (λ d, if bool_decide (loc ∈ locs) then merged loc mst ph keys d else d)
          <$> localeData st !! loc.
Proof.
  revert st. induction keys as [|key keys IH]; intros st Hdom.
  - exists st. split; [done|]. intros loc.
    destruct (localeData st !! loc); [|done]. cbn. by case_bool_decide.
  - cbn [for_of].
    destruct (inner_loop key locs st Hdom) as (st1 & -> & Hst1).
    destruct (IH st1) as (st' & -> & Hst').
    { eapply Forall_impl; [exact Hdom|]. intros l' [d Hl']. cbn in Hl'.
      rewrite Hst1, Hl'. cbn. eauto. }
    exists st'. split; [done|]. intros loc. rewrite Hst', Hst1.
    destruct (localeData st !! loc); [|done].
    cbn [fmap option_fmap option_map]. f_equal.
    by case_bool_decide.
Qed.

Lemma reconcile_spec keys locs data :
  Forall (λ l, is_Some (data !! l)) locs →
  ∃ st, reconcile keys locs mst ph data = inr st
    ∧ ∀ loc, localeData st !! loc =
        (λ d, if bool_decide (loc ∈ locs) then merged loc mst ph keys d else d)
          <$> data !! loc.
Proof. intros Hdom. unfold reconcile. by apply outer_loop. Qed.

(** X16. The names of a reconciled dictionary: those it had, and the found keys
    that [Object.prototype] does not have as well. *)
Lemma reconcile_key_set keys locs data st loc d d' K :
  reconcile keys locs mst ph data = inr st →
  Forall (λ l, is_Some (data !! l)) locs → loc ∈ locs →
  data !! loc = Some d → localeData st !! loc = Some d' →
  has_own K d' = true ↔
  has_own K d = true ∨ (K ∈ keys ∧ K ∉ Object_prototype_names).
Proof.
  intros Hst Hdom Hloc Hd Hd'.
  destruct (reconcile_spec keys locs data Hdom) as (st' & Hst' & Hdata).
  rewrite Hst in Hst'. injection Hst' as <-.
  specialize (Hdata loc). rewrite Hd, Hd' in Hdata.
  cbn [fmap option_fmap option_map] in Hdata.
  rewrite bool_decide_eq_true_2 in Hdata by done. injection Hdata as ->.
  rewrite !has_own_get, get_own_merged.
  destruct (get_own K d) as [v|].
  - split; [intros H; by left|intros _; by eexists].
  - case_bool_decide as HK.
    + split; [intros _; right; exact HK|intros _; by eexists].
    + split; [by intros [? ?]|]. intros [[? ?]|?]; done.
Qed.

Lemma inner_noop key locs st :
  Forall (λ l, ∃ d, localeData st !! l = Some d ∧ HasProperty key d = true) locs →
  for_of (visit mst ph key) locs st = inr st.
Proof.
  induction 1 as [|l locs (d & Hd & Hk) _ IH]; [done|].
  cbn [for_of]. by rewrite (visit_noop key st l d).
Qed.

Lemma outer_noop keys locs st :
  Forall (λ key, Forall (λ l, ∃ d, localeData st !! l = Some d
                                 ∧ HasProperty key d = true) locs) keys →
  for_of (λ st key, for_of (visit mst ph key) locs st) keys st = inr st.
Proof.
  induction 1 as [|key keys Hk _ IH]; [done|].
  cbn [for_of]. by rewrite inner_noop.
Qed.

End Reconcile.

Section RunScan.







End RunScan.

Section Termination.

Variable Input : jsstring.

(** What the progress lemmas say of a matcher: it only succeeds through its
    continuation, at a state at least [w] units further and still inside
    the input. *)
Let advances (m : Matcher) (w : nat) : Prop :=
  ∀ x c z, m x c = Some z →
    ∃ y, c y = Some z
      ∧ (endIndex x + w ≤ endIndex y)%nat
      ∧ ((endIndex x ≤ length Input)%nat → (endIndex y ≤ length Input)%nat).

Lemma CharacterSetMatcher_advances p :
  advances (CharacterSetMatcher Input p) 1.
Proof.
  intros x c z. unfold CharacterSetMatcher.
  destruct (Input !! endIndex x) as [ch|] eqn:Hch; [|done].
  destruct (p ch); [|done]. intros Hc.
  eexists. split; [exact Hc|]. cbn. split; [lia|].
  intros _. apply lookup_lt_Some in Hch. lia.
Qed.

Lemma BackreferenceMatcher_advances n :
  advances (BackreferenceMatcher Input n) 0.
Proof.
  intros x c z. unfold BackreferenceMatcher.
  destruct (captures x !! n) as [[[a b]|]|].
  - case_bool_decide as H; [|done]. intros Hc.
    eexists. split; [exact Hc|]. cbn. split; [lia|]. intros _. lia.
  - intros Hc. exists x. split; [done|]. split; [lia|done].
  - intros Hc. exists x. split; [done|]. split; [lia|done].
Qed.

Lemma RepeatMatcher_advances m w fuel :
  advances m w →
  ∀ min gs, advances (RepeatMatcher fuel m min gs)
              (if (min =? 0)%nat then 0 else w).
Proof.
  intros Hm. induction fuel as [|fuel IH]; intros min gs x c z; [done|].
  cbn [RepeatMatcher]. destruct (min =? 0)%nat eqn:Hmin.
  - cbn [andb].
    destruct (m (clear_captures gs x) _) as [z'|] eqn:Hz.
    + intros [= ->]. apply Hm in Hz as (y & Hd & Hle & Hin).
      cbn beta in Hd. destruct (endIndex y =? endIndex x)%nat; [done|].
      apply IH in Hd as (y' & Hc & Hle' & Hin').
      exists y'. split; [done|]. cbn in *. split; [lia|]. auto.
    + intros Hc. exists x. split; [done|]. split; [lia|done].
  - cbn [andb]. intros Hz.
    apply Hm in Hz as (y & Hd & Hle & Hin).
    apply IH in Hd as (y' & Hc & Hle' & Hin').
    exists y'. split; [done|]. cbn in *. split; [lia|]. auto.
Qed.

Lemma compile_fuel_advances fuel r :
  advances (compile_fuel Input fuel r) (min_width r).
Proof.
  induction r as [|ch| | |cs|cs|r1 IH1 r2 IH2|r1 IH1 r2 IH2|r IH|r IH|n r IH|n|r IH];
    cbn [compile_fuel min_width];
    try apply CharacterSetMatcher_advances.
  - intros x c z Hc. exists x. split; [done|]. split; [lia|done].
  - intros x c z Hz. apply IH1 in Hz as (y1 & Hz & Hle1 & Hin1).
    apply IH2 in Hz as (y2 & Hz & Hle2 & Hin2).
    exists y2. split; [done|]. split; [lia|]. auto.
  - intros x c z Hz. destruct (compile_fuel Input fuel r1 x c) as [z'|] eqn:H1.
    + injection Hz as ->. apply IH1 in H1 as (y & ? & ? & ?).
      exists y. split; [done|]. split; [lia|done].
    + apply IH2 in Hz as (y & ? & ? & ?).
      exists y. split; [done|]. split; [lia|done].
  - apply (RepeatMatcher_advances _ _ _ IH 0%nat).
  - apply (RepeatMatcher_advances _ _ _ IH 1%nat).
  - intros x c z Hz. apply IH in Hz as (y & Hz & ? & ?).
    eexists. split; [exact Hz|]. cbn. split; [lia|done].
  - apply BackreferenceMatcher_advances.
  - intros x c z Hz. destruct (compile_fuel Input fuel r x Some); [done|].
    exists x. split; [done|]. split; [lia|done].
Qed.

Lemma compile_advances r : advances (compile Input r) (min_width r).
Proof. apply compile_fuel_advances. Qed.

(** Two matchers, or one matcher under two amounts of fuel, are
    interchangeable when they give the same result for continuations that
    agree on the states further on in the input. *)
Let agree (x : MatchState) (c1 c2 : Continuation) : Prop :=
  ∀ y, (endIndex x ≤ endIndex y)%nat → (endIndex y ≤ length Input)%nat →
       c1 y = c2 y.

Let alike (m1 m2 : Matcher) : Prop :=
  ∀ x c1 c2, (endIndex x ≤ length Input)%nat → agree x c1 c2 →
             m1 x c1 = m2 x c2.

Lemma CharacterSetMatcher_alike p :
  alike (CharacterSetMatcher Input p) (CharacterSetMatcher Input p).
Proof.
  intros x c1 c2 Hx Hc. unfold CharacterSetMatcher.
  destruct (Input !! endIndex x) as [ch|] eqn:Hch; [|done].
  destruct (p ch); [|done]. apply lookup_lt_Some in Hch.
  apply Hc; cbn; lia.
Qed.

Lemma BackreferenceMatcher_alike n :
  alike (BackreferenceMatcher Input n) (BackreferenceMatcher Input n).
Proof.
  intros x c1 c2 Hx Hc. unfold BackreferenceMatcher.
  destruct (captures x !! n) as [[[a b]|]|]; [|by apply Hc..].
  case_bool_decide as H; [|done]. apply Hc; cbn; lia.
Qed.

Lemma RepeatMatcher_alike m1 m2 gs :
  alike m1 m2 →
  ∀ fuel1 fuel2 min x c1 c2,
    (length Input - endIndex x + min < fuel1)%nat →
    (length Input - endIndex x + min < fuel2)%nat →
    (endIndex x ≤ length Input)%nat → agree x c1 c2 →
    RepeatMatcher fuel1 m1 min gs x c1 = RepeatMatcher fuel2 m2 min gs x c2.
Proof.
  intros Hm. induction fuel1 as [|fuel1 IH];
    intros fuel2 min x c1 c2 H1 H2 Hx Hc; [lia|].
  destruct fuel2 as [|fuel2]; [lia|]. cbn [RepeatMatcher].
  match goal with
  | |- context [m1 _ ?d1] =>
      match goal with
      | |- context [m2 _ ?d2] =>
          assert (Hd : m1 (clear_captures gs x) d1 = m2 (clear_captures gs x) d2)
      end
  end.
  { apply Hm; [done|]. intros y Hy1 Hy2. cbn in Hy1.
    destruct (min =? 0)%nat eqn:Hmin; cbn [andb].
    - apply Nat.eqb_eq in Hmin as ->.
      destruct (endIndex y =? endIndex x)%nat eqn:Hy; [done|].
      apply Nat.eqb_neq in Hy.
      apply IH; [lia..|]. intros y' ? ?. apply Hc; lia.
    - apply Nat.eqb_neq in Hmin.
      apply IH; [lia..|]. intros y' ? ?. apply Hc; lia. }
  rewrite Hd. destruct (min =? 0)%nat; [|done].
  destruct (m2 _ _); [done|]. apply Hc; lia.
Qed.

Lemma compile_fuel_alike r fuel1 fuel2 :
  (repeat_fuel Input ≤ fuel1)%nat → (repeat_fuel Input ≤ fuel2)%nat →
  alike (compile_fuel Input fuel1 r) (compile_fuel Input fuel2 r).
Proof.
  unfold repeat_fuel. intros Hf1 Hf2.
  induction r as [|ch| | |cs|cs|r1 IH1 r2 IH2|r1 IH1 r2 IH2|r IH|r IH|n r IH|n|r IH];
    cbn [compile_fuel];
    try apply CharacterSetMatcher_alike.
  - intros x c1 c2 Hx Hc. apply Hc; [lia|done].
  - intros x c1 c2 Hx Hc. apply IH1; [done|].
    intros y Hy1 Hy2. apply IH2; [done|].
    intros y' ? ?. apply Hc; lia.
  - intros x c1 c2 Hx Hc. rewrite (IH1 x c1 c2 Hx Hc).
    destruct (compile_fuel Input fuel2 r1 x c2); [done|]. by apply IH2.
  - intros x c1 c2 Hx Hc. apply RepeatMatcher_alike; [done|lia..|done|done].
  - intros x c1 c2 Hx Hc. apply RepeatMatcher_alike; [done|lia..|done|done].
  - intros x c1 c2 Hx Hc. apply IH; [done|].
    intros y Hy1 Hy2. apply Hc; cbn; lia.
  - apply BackreferenceMatcher_alike.
  - intros x c1 c2 Hx Hc.
    rewrite (IH x Some Some Hx) by done.
    destruct (compile_fuel Input fuel2 r x Some); [done|]. apply Hc; lia.
Qed.

(** The fuel of [compile] is enough: no larger amount changes the result of
    any pattern at any position of the input. *)
Lemma compile_fuel_enough fuel r x c :
  (repeat_fuel Input ≤ fuel)%nat → (endIndex x ≤ length Input)%nat →
  compile_fuel Input fuel r x c = compile Input r x c.
Proof.
  intros Hf Hx. apply compile_fuel_alike; [done..|]. by intros y _ _.
Qed.

Lemma match_from_advances re tries i j y :
  match_from re Input tries i = Some (j, y) →
  (i + tries ≤ S (length Input))%nat →
  (j + min_width (pattern re) ≤ endIndex y)%nat
  ∧ (i ≤ j)%nat ∧ (endIndex y ≤ length Input)%nat.
Proof.
  revert i. induction tries as [|tries IH]; intros i; [done|].
  cbn [match_from]. destruct (compile _ _ _ _) as [y'|] eqn:Hy.
  - intros [= -> ->] Hi.
    apply compile_advances in Hy as (y' & [= ->] & Hle & Hin).
    cbn in *. split; [lia|]. split; [lia|]. apply Hin. lia.
  - intros Hm Hi. destruct (IH (S i) Hm) as (? & ? & ?); [lia|].
    split; [done|]. split; [lia|done].
Qed.

End Termination.

(** [exec] either resets [lastIndex] and reports no match, or moves it
    forward by at least the width of the pattern, never past the end. *)
Lemma exec_advances (re : RegExp) (source : jsstring) :
  match exec re source with
  | (None, re') => re' = mkRegExp (pattern re) (ngroups re) 0
  | (Some _, re') =>
      pattern re' = pattern re ∧ ngroups re' = ngroups re
      ∧ (lastIndex re + min_width (pattern re) ≤ lastIndex re')%nat
      ∧ (lastIndex re' ≤ length source)%nat
  end.
Proof.
  unfold exec.
  destruct (match_from _ _ _ _) as [[j y]|] eqn:Hm; [|done].
  destruct (decide (lastIndex re ≤ length source)%nat) as [Hle|Hgt].
  - apply match_from_advances in Hm as (? & ? & ?); [|lia].
    cbn. split_and!; [done..|lia|done].
  - replace (S (length source) - lastIndex re)%nat with 0%nat in Hm by lia.
    done.
Qed.

(** The [while] loop of [extractKeys] ends with a failed [exec], which
    leaves [lastIndex] at 0, within the rounds it is given. *)
Lemma exec_loop_ends (rounds : nat) (re : RegExp) (source : jsstring)
    (keys : JsSet) :
  (1 ≤ min_width (pattern re))%nat →
  (length source - lastIndex re < rounds)%nat →
  (exec_loop rounds re source keys).2 = mkRegExp (pattern re) (ngroups re) 0.
Proof.
  intros Hw. revert re keys Hw.
  induction rounds as [|rounds IH]; intros re keys Hw Hr; [lia|].
  cbn [exec_loop]. pose proof (exec_advances re source) as Hex.
  destruct (exec re source) as [[m|] re']; [|done].
  destruct Hex as (Hp & Hg & Hlt & Hle).
  rewrite IH; [by rewrite Hp, Hg|by rewrite Hp|lia].
Qed.

(** X1. Every call of [extractKeys] finds the three RegExp objects with
    [lastIndex] 0 and leaves them so. *)
Lemma extractKeys_restores_patterns (source : jsstring) (keys : JsSet) :
  (extractKeys_with CALL_PATTERNS source keys).2 = CALL_PATTERNS.
Proof.
  unfold CALL_PATTERNS. cbn [extractKeys_with].
  pose proof (exec_loop_ends (S (length source)) call_pattern source keys) as H1.
  destruct (exec_loop _ call_pattern source keys) as [keys1 re1].
  pose proof (exec_loop_ends (S (length source)) lang_pattern source keys1) as H2.
  destruct (exec_loop _ lang_pattern source keys1) as [keys2 re2].
  pose proof (exec_loop_ends (S (length source)) template_pattern source keys2) as H3.
  destruct (exec_loop _ template_pattern source keys2) as [keys3 re3].
  cbn in *. rewrite H1, H2, H3; [done|lia..].
Qed.

(** ** The examples of the specification, run on the embedding *)

Example unescapeString_example :
  unescapeString (str "it\'s a \\ and \n")  = str "it's a \ and \n".
Proof. reflexivity. Qed.

Example extractKeys_example :
  extractKeys (str "__('hello.world') trans(" ++ [DQUOTE] ++ str "bye" ++ [DQUOTE]
               ++ str ") @lang('greet') trans(`multi word`)")
  = [str "hello.world"; str "bye"; str "multi word"; str "greet"].
Proof. vm_compute. reflexivity. Qed.

Example extractKeys_empty_source : extractKeys [] = [].
Proof. reflexivity. Qed.

Example extractKeys_repeated_and_empty :
  extractKeys (str "__('a') __( 'a' ) trans('')trans('b')") = [str "a"; str "b"].
Proof. vm_compute. reflexivity. Qed.

Example extractKeys_multiline_template :
  extractKeys (str "__(`one" ++ [LF] ++ str "two`)") = [].
Proof. vm_compute. reflexivity. Qed.

Example reconcile_example_copy :
  reconcile [str "a"; str "b"] [str "en"; str "de"] (str "en") copy
    (<[str "en" := [(str "a", str "Hello")]]> (<[str "de" := []]> ∅))
  = inr (mkScan
           (<[str "en" := [(str "a", str "Hello"); (str "b", str "b")]]>
              (<[str "de" := [(str "a", str "a"); (str "b", str "b")]]> ∅))
           3
           (<[str "en" := 1%nat]> (<[str "de" := 2%nat]> ∅))).
Proof. vm_compute. reflexivity. Qed.

Example reconcile_example_empty :
  reconcile [str "a"; str "b"] [str "en"; str "de"] (str "en") empty
    (<[str "en" := [(str "a", str "Hello")]]> (<[str "de" := []]> ∅))
  = inr (mkScan
           (<[str "en" := [(str "a", str "Hello"); (str "b", str "b")]]>
              (<[str "de" := [(str "a", []); (str "b", [])]]> ∅))
           3
           (<[str "en" := 1%nat]> (<[str "de" := 2%nat]> ∅))).
Proof. vm_compute. reflexivity. Qed.

Example serialize_example :
  serialize [(str "b", str "B"); (str "a", str "A")]
  = str "{" ++ [LF]
    ++ str "  " ++ [DQUOTE] ++ str "a" ++ [DQUOTE] ++ str ": "
    ++ [DQUOTE] ++ str "A" ++ [DQUOTE] ++ str "," ++ [LF]
    ++ str "  " ++ [DQUOTE] ++ str "b" ++ [DQUOTE] ++ str ": "
    ++ [DQUOTE] ++ str "B" ++ [DQUOTE] ++ [LF]
    ++ str "}" ++ [LF].
Proof. vm_compute. reflexivity. Qed.

Example serialize_empty : serialize [] = str "{}" ++ [LF].
Proof. reflexivity. Qed.

(** C3. Whatever keys were found, reconciliation leaves every dictionary a
    prefix of what it becomes: the entries it had keep their place and their
    value, and what is appended are names it did not have. *)
Theorem reconcile_keeps_existing (keys locs : list jsstring) (mst : jsstring)
    (ph : Placeholder) (data : gmap jsstring LocaleMap) :
  Forall (λ l, is_Some (data !! l)) locs →
  ∃ st, reconcile keys locs mst ph data = inr st
    ∧ ∀ loc d, data !! loc = Some d →
        ∃ d' extra, localeData st !! loc = Some d'
          ∧ d' = d ++ extra
          ∧ (∀ K, K ∈ extra.*1 → has_own K d = false)
          ∧ (∀ K V, get_own K d = Some V → get_own K d' = Some V).
Proof.
  intros Hdom.
  destruct (reconcile_spec mst ph keys locs data Hdom) as (st & Hst & Hdata).
  exists st. split; [done|]. intros loc d Hd.
  specialize (Hdata loc). rewrite Hd in Hdata.
  cbn [fmap option_fmap option_map] in Hdata.
  case_bool_decide.
  - destruct (merged_extends mst ph loc keys d) as (extra & Hm & Hex).
    exists (merged loc mst ph keys d), extra. split_and!; [done..| |].
    + intros K HK. destruct (Hex K HK) as [Hn _].
      unfold HasProperty in Hn. by apply orb_false_elim in Hn as [? _].
    + intros K V HK. rewrite Hm, get_own_app. by rewrite HK.
  - exists d, []. split_and!; [done|by rewrite app_nil_r| |done].
    by intros K ?%elem_of_nil.
Qed.

Lemma reconcile_keeps_existing_witness :
  ∃ st, reconcile [str "a"; str "b"] [str "en"; str "de"] (str "en") copy
          (<[str "en" := [(str "a", str "Hello")]]> (<[str "de" := []]> ∅)) = inr st
    ∧ ∀ loc d,
        (<[str "en" := [(str "a", str "Hello")]]> (<[str "de" := []]> ∅) : gmap jsstring LocaleMap)
          !! loc = Some d →
        ∃ d' extra, localeData st !! loc = Some d'
          ∧ d' = d ++ extra
          ∧ (∀ K, K ∈ extra.*1 → has_own K d = false)
          ∧ (∀ K V, get_own K d = Some V → get_own K d' = Some V).
Proof.
  apply (reconcile_keeps_existing [str "a"; str "b"] [str "en"; str "de"]).
  repeat constructor; vm_compute; eauto.
Defined.

(** C4. An entry that reconciliation added has the value line 140 gives it:
    the key in the master locale; elsewhere the key in mode copy and the
    empty string in mode empty. *)
Theorem reconcile_new_values (keys locs : list jsstring) (mst : jsstring)
    (ph : Placeholder) (data : gmap jsstring LocaleMap) :
  Forall (λ l, is_Some (data !! l)) locs →
  ∃ st, reconcile keys locs mst ph data = inr st
    ∧ ∀ loc d d' K V,
        data !! loc = Some d → localeData st !! loc = Some d' →
        get_own K d = None → get_own K d' = Some V →
        (loc = mst → V = K)
        ∧ (loc ≠ mst → ph = copy → V = K)
        ∧ (loc ≠ mst → ph = empty → V = []).
Proof.
  intros Hdom.
  destruct (reconcile_spec mst ph keys locs data Hdom) as (st & Hst & Hdata).
  exists st. split; [done|]. intros loc d d' K V Hd Hd' Hold Hnew.
  specialize (Hdata loc). rewrite Hd, Hd' in Hdata.
  cbn [fmap option_fmap option_map] in Hdata.
  injection Hdata as ->. case_bool_decide; [|congruence].
  rewrite get_own_merged, Hold in Hnew.
  case_bool_decide; [|done]. injection Hnew as <-.
  unfold new_value. split_and!.
  - intros ->. by rewrite bool_decide_eq_true_2.
  - intros Hne ->. by case_bool_decide.
  - intros Hne ->. by rewrite bool_decide_eq_false_2.
Qed.

Lemma reconcile_new_values_witness :
  ∃ st, reconcile [str "a"; str "b"] [str "en"; str "de"] (str "en") empty
          (<[str "en" := [(str "a", str "Hello")]]> (<[str "de" := []]> ∅)) = inr st
    ∧ ∀ loc d d' K V,
        (<[str "en" := [(str "a", str "Hello")]]> (<[str "de" := []]> ∅) : gmap jsstring LocaleMap)
          !! loc = Some d →
        localeData st !! loc = Some d' →
        get_own K d = None → get_own K d' = Some V →
        (loc = str "en" → V = K)
        ∧ (loc ≠ str "en" → empty = copy → V = K)
        ∧ (loc ≠ str "en" → empty = empty → V = []).
Proof.
  apply (reconcile_new_values [str "a"; str "b"] [str "en"; str "de"]).
  repeat constructor; vm_compute; eauto.
Defined.

(** C5. A second reconciliation with the same keys, on the dictionaries the
    first one produced, adds nothing: the total and every per-locale count
    are zero and the dictionaries are the same. *)
Theorem reconcile_idempotent (keys locs : list jsstring) (mst : jsstring)
    (ph : Placeholder) (data : gmap jsstring LocaleMap) :
  Forall (λ l, is_Some (data !! l)) locs →
  ∃ st, reconcile keys locs mst ph data = inr st
    ∧ ∃ st2, reconcile keys locs mst ph (localeData st) = inr st2
        ∧ addedTotal st2 = 0%nat
        ∧ (∀ l, l ∈ locs → perLocaleCounts st2 !! l = Some 0%nat)
        ∧ localeData st2 = localeData st.
Proof.
  intros Hdom.
  destruct (reconcile_spec mst ph keys locs data Hdom) as (st & Hst & Hdata).
  exists st. split; [done|].
  eexists. split.
  - unfold reconcile. apply outer_noop.
    apply Forall_forall. intros key Hkey.
    apply Forall_forall. intros l Hl. cbn [localeData].
    rewrite Forall_forall in Hdom. destruct (Hdom l Hl) as [d Hd].
    rewrite Hdata, Hd. cbn [fmap option_fmap option_map].
    eexists. split; [done|].
    rewrite bool_decide_eq_true_2 by done. by apply HasProperty_merged.
  - cbn. split_and!; [done| |done].
    intros l Hl. apply elem_of_list_to_map_1'.
    + intros y Hy. apply list_elem_of_fmap in Hy as (l' & [= -> ->] & _). done.
    + apply list_elem_of_fmap. by exists l.
Qed.

Lemma reconcile_idempotent_witness :
  ∃ st, reconcile [str "a"; str "b"] [str "en"; str "de"] (str "en") copy
          (<[str "en" := [(str "a", str "Hello")]]> (<[str "de" := []]> ∅)) = inr st
    ∧ ∃ st2, reconcile [str "a"; str "b"] [str "en"; str "de"] (str "en") copy
               (localeData st) = inr st2
        ∧ addedTotal st2 = 0%nat
        ∧ (∀ l, l ∈ [str "en"; str "de"] → perLocaleCounts st2 !! l = Some 0%nat)
        ∧ localeData st2 = localeData st.
Proof.
  apply (reconcile_idempotent [str "a"; str "b"] [str "en"; str "de"]).
  repeat constructor; vm_compute; eauto.
Defined.

(** C6. The keys may be enumerated and the locales visited in any order:
    every locale ends with the same names bound to the same values, so the
    same entries were added to it. *)
Theorem reconcile_order_independent (keys keys' locs locs' : list jsstring)
    (mst : jsstring) (ph : Placeholder) (data : gmap jsstring LocaleMap) :
  keys ≡ₚ keys' → locs ≡ₚ locs' →
  Forall (λ l, is_Some (data !! l)) locs →
  ∃ st st', reconcile keys locs mst ph data = inr st
    ∧ reconcile keys' locs' mst ph data = inr st'
    ∧ ∀ loc K, get_own K <$> localeData st !! loc
               = get_own K <$> localeData st' !! loc.
Proof.
  intros Hkeys Hlocs Hdom.
  assert (Hdom' : Forall (λ l, is_Some (data !! l)) locs') by by rewrite <- Hlocs.
  destruct (reconcile_spec mst ph keys locs data Hdom) as (st & Hst & Hdata).
  destruct (reconcile_spec mst ph keys' locs' data Hdom') as (st' & Hst' & Hdata').
  exists st, st'. split_and!; [done..|]. intros loc K.
  rewrite Hdata, Hdata'. destruct (data !! loc) as [d|]; [|done].
  cbn [fmap option_fmap option_map]. f_equal.
  rewrite (bool_decide_ext (loc ∈ locs) (loc ∈ locs')) by by rewrite Hlocs.
  case_bool_decide; [|done].
  rewrite !get_own_merged. destruct (get_own K d); [done|].
  erewrite bool_decide_ext; [done|]. by rewrite Hkeys.
Qed.

Lemma reconcile_order_independent_witness :
  ∃ st st', reconcile [str "a"; str "b"] [str "en"; str "de"] (str "en") copy
              (<[str "en" := [(str "a", str "Hello")]]> (<[str "de" := []]> ∅)) = inr st
    ∧ reconcile [str "b"; str "a"] [str "de"; str "en"] (str "en") copy
              (<[str "en" := [(str "a", str "Hello")]]> (<[str "de" := []]> ∅)) = inr st'
    ∧ ∀ loc K, get_own K <$> localeData st !! loc
               = get_own K <$> localeData st' !! loc.
Proof.
  apply reconcile_order_independent.
  - apply perm_swap.
  - apply perm_swap.
  - repeat constructor; vm_compute; eauto.
Defined.

(** C9. With a master locale that is not in the locale list the
    reconciliation loop still runs to its end, no error, on the
    dictionaries of the listed locales; and every entry it adds to a
    dictionary has the value of the placeholder mode alone, the key for
    [copy] and the empty string for [empty]. *)
Theorem reconcile_master_not_listed (keys locs : list jsstring)
    (mst : jsstring) (ph : Placeholder) (data : gmap jsstring LocaleMap) :
  mst ∉ locs →
  Forall (λ l, is_Some (data !! l)) locs →
  ∃ st, reconcile keys locs mst ph data = inr st
    ∧ ∀ loc d0 d K V,
        data !! loc = Some d0 → localeData st !! loc = Some d →
        get_own K d0 = None → get_own K d = Some V →
        V = match ph with copy => K | empty => [] end.
Proof.
  intros Hmst Hdom.
  destruct (reconcile_spec mst ph keys locs data Hdom) as (st & Hst & Hdata).
  exists st. split; [done|]. intros loc d0 d K V Hd0 Hd Hold Hnew.
  rewrite Hdata, Hd0 in Hd. cbn [fmap option_fmap option_map] in Hd.
  injection Hd as <-.
  case_bool_decide as Hin; [|congruence].
  rewrite get_own_merged, Hold in Hnew.
  case_bool_decide; [|done]. injection Hnew as <-.
  unfold new_value. rewrite bool_decide_eq_false_2; [done|].
  by intros ->.
Qed.

Lemma reconcile_master_not_listed_witness :
  ∃ st, reconcile [str "a"; str "b"] [str "de"; str "fr"] (str "en") empty
          (<[str "de" := [(str "a", str "Hallo")]]> (<[str "fr" := []]> ∅)) = inr st
    ∧ ∀ loc d0 d K V,
        (<[str "de" := [(str "a", str "Hallo")]]> (<[str "fr" := []]> ∅)
           : gmap jsstring LocaleMap) !! loc = Some d0 →
        localeData st !! loc = Some d →
        get_own K d0 = None → get_own K d = Some V →
        V = [].
Proof.
  apply (reconcile_master_not_listed [str "a"; str "b"] [str "de"; str "fr"]
           (str "en") empty
           (<[str "de" := [(str "a", str "Hallo")]]> (<[str "fr" := []]> ∅))).
  - intros H. repeat (apply elem_of_cons in H as [H|H]; [discriminate H|]).
    by apply elem_of_nil in H.
  - repeat constructor; vm_compute; eauto.
Defined.

(** C10, at the input where it fails: the name [constructor] is found in
    the sources and the dictionary of [en] is empty, yet the name is not
    added, because [in] finds it on [Object.prototype]. *)
Theorem reconcile_skips_inherited_name :
  str "constructor" ∈ extractKeys (str "__('constructor')")
  ∧ ∃ st, reconcile (extractKeys (str "__('constructor')")) [str "en"]
            (str "en") copy (<[str "en" := []]> ∅) = inr st
      ∧ localeData st !! str "en" = Some []
      ∧ addedTotal st = 0%nat.
Proof.
  split.
  - vm_compute. apply list_elem_of_here.
  - eexists. split_and!.
    + vm_compute. reflexivity.
    + vm_compute. reflexivity.
    + reflexivity.
Qed.

Section ExtractKeys.

Lemma includes_false (s : jsstring) (c : code_unit) :
  includes s c = false ↔ c ∉ s.
Proof.
  unfold includes. rewrite <- not_true_iff_false, existsb_exists.
  split.
  - intros H Hin. apply H. exists c. split; [by apply list_elem_of_In|].
    apply N.eqb_refl.
  - intros H (x & Hin & ->%N.eqb_eq). by apply H, list_elem_of_In.
Qed.

Lemma replace_pair_elem a b r (s : jsstring) (c : code_unit) :
  c ∈ replace_pair a b r s → c ∈ s ∨ c = r.
Proof.
  remember (length s) as n eqn:Hn.
  revert s Hn. induction (lt_wf n) as [n _ IH]. intros s ->.
  destruct s as [|x [|y s]]; [by left..|].
  rewrite replace_pair_cons2. destruct (_ && _).
  - intros [->|Hin]%elem_of_cons; [by right|].
    destruct (IH (length s) ltac:(simpl; lia) s eq_refl Hin); [left|by right].
    by do 2 apply list_elem_of_further.
  - intros [->|Hin]%elem_of_cons; [left; apply list_elem_of_here|].
    destruct (IH (length (y :: s)) ltac:(simpl; lia) (y :: s) eq_refl Hin);
      [left|by right].
    by apply list_elem_of_further.
Qed.

(** Unescaping writes quotes and backslashes only. *)
Lemma unescapeString_no_newline (s : jsstring) :
  no_newline s → no_newline (unescapeString s).
Proof.
  unfold no_newline. rewrite !includes_false. intros Hs Hin.
  unfold unescapeString in Hin.
  apply replace_pair_elem in Hin as [Hin|?]; [|done].
  apply replace_pair_elem in Hin as [Hin|?]; [|done].
  apply replace_pair_elem in Hin as [Hin|?]; [|done].
  done.
Qed.

Lemma Set_add_elem (k k' : jsstring) (keys : JsSet) :
  k' ∈ Set_add k keys ↔ k' ∈ keys ∨ k' = k.
Proof.
  unfold Set_add. case_bool_decide.
  - split; [by left|]. by intros [?| ->].
  - rewrite elem_of_app, list_elem_of_singleton. done.
Qed.

Lemma add_match_no_newline (keys : JsSet) (m : MatchArray) :
  Forall no_newline keys → Forall no_newline (add_match keys m).
Proof.
  intros Hkeys. unfold add_match.
  destruct (captured_key m) as [key|]; [|done].
  destruct (negb (bool_decide (key = []))); [|done]. cbn [andb].
  destruct (includes key LF) eqn:Hk; [done|]. cbn [negb].
  apply Forall_forall. intros k [Hin| ->]%Set_add_elem.
  - rewrite Forall_forall in Hkeys. by apply Hkeys.
  - by apply unescapeString_no_newline.
Qed.

Lemma exec_loop_no_newline rounds re (source : jsstring) (keys : JsSet) :
  Forall no_newline keys →
  Forall no_newline (exec_loop rounds re source keys).1.
Proof.
  revert re keys. induction rounds as [|rounds IH]; intros re keys Hkeys; [done|].
  cbn [exec_loop]. destruct (exec re source) as [[m|] re']; [|done].
  apply IH. by apply add_match_no_newline.
Qed.

Lemma extractKeys_with_no_newline res (source : jsstring) (keys : JsSet) :
  Forall no_newline keys →
  Forall no_newline (extractKeys_with res source keys).1.
Proof.
  revert keys. induction res as [|re res IH]; intros keys Hkeys; [done|].
  cbn [extractKeys_with].
  pose proof (exec_loop_no_newline (S (length source)) re source keys Hkeys) as H1.
  destruct (exec_loop _ re source keys) as [keys' re'].
  specialize (IH keys' H1).
  destruct (extractKeys_with res source keys') as [keys'' res'']. done.
Qed.

End ExtractKeys.

(** C7. No key that [extractKeys] returns contains a newline; and a match
    whose captured content contains one leaves the set of keys as it was. *)
Theorem extractKeys_no_newline (source : jsstring) :
  (∀ k, k ∈ extractKeys source → includes k LF = false)
  ∧ (∀ (keys : JsSet) (m : MatchArray) (key : jsstring),
       captured_key m = Some key → includes key LF = true →
       add_match keys m = keys).
Proof.
  split.
  - intros k Hk. unfold extractKeys in Hk.
    pose proof (extractKeys_with_no_newline CALL_PATTERNS source [] (Forall_nil_2 _)) as H.
    rewrite Forall_forall in H. by apply H.
  - intros keys m key Hm Hk. unfold add_match. rewrite Hm, Hk.
    by rewrite andb_false_r.
Qed.

Lemma extractKeys_no_newline_witness :
  includes (str "a") LF = false
  ∧ add_match [str "a"] [Some (str "__(`b" ++ [LF] ++ str "c`)");
                          Some (str "b" ++ [LF] ++ str "c")] = [str "a"].
Proof.
  destruct (extractKeys_no_newline (str "__('a')")) as [H1 H2]. split.
  - apply H1. vm_compute. apply list_elem_of_here.
  - apply (H2 _ _ (str "b" ++ [LF] ++ str "c")); reflexivity.
Defined.

(** C1, at the input where it fails: the only call in the source is [__]
    with a backtick-quoted argument that contains a dollar sign.  The third
    pattern refuses it, but the first pattern accepts a backtick as its
    quote and a dollar sign in the content, so the interpolated template is
    returned as a key. *)
Theorem extractKeys_interpolated_template :
  extractKeys (str "__(`hi ${name}`)") = [str "hi ${name}"]
  ∧ (∃ m re', exec call_pattern (str "__(`hi ${name}`)") = (Some m, re')
              ∧ captured_key m = Some (str "hi ${name}"))
  ∧ (∃ re', exec template_pattern (str "__(`hi ${name}`)") = (None, re')).
Proof.
  split_and!.
  - vm_compute. reflexivity.
  - do 2 eexists. split; vm_compute; reflexivity.
  - eexists. vm_compute. reflexivity.
Qed.

(** C2, at the input where it fails: the keys 9 and 10, found in the
    sources and written for the locale [en].  [sort] puts 10 before 9, but
    both are array indices, which an object enumerates in numeric order,
    so the file has 9 before 10 although 10 is the smaller string. *)
Theorem runScan_index_keys_not_sorted :
  let quoted (s : string) := [DQUOTE] ++ str s ++ [DQUOTE] in
  ∃ res data,
    runScan (mkOptions [str "src/**/*.js"] (str "lang") [str "en"] (str "en") copy false true)
            [Some (str "__('9') __('10')")] (λ _, NoFile)
    = inr (res, data,
           [(str "en",
             str "{" ++ [LF]
             ++ str "  " ++ quoted "9"%string ++ str ": " ++ quoted "9"%string ++ str "," ++ [LF]
             ++ str "  " ++ quoted "10"%string ++ str ": " ++ quoted "10"%string ++ [LF]
             ++ str "}" ++ [LF])])
    ∧ data !! str "en" = Some [(str "9", str "9"); (str "10", str "10")]
    ∧ serialized_keys [(str "9", str "9"); (str "10", str "10")]
      = [str "9"; str "10"]
    ∧ str_lt (str "10") (str "9").
Proof.
  cbn zeta. do 2 eexists. split_and!.
  - vm_compute. reflexivity.
  - vm_compute. reflexivity.
  - vm_compute. reflexivity.
  - reflexivity.
Qed.

(** * Further properties of the code *)

Section UnescapeMore.

Lemma replace_pair_absent a b r (s : jsstring) :
  a ∉ s → replace_pair a b r s = s.
Proof.
  induction s as [|x s IH]; [done|].
  intros Hx. apply not_elem_of_cons in Hx as [Hne Hs].
  destruct s as [|y s]; [done|]. rewrite replace_pair_cons2.
  apply not_eq_sym, N.eqb_neq in Hne. rewrite Hne. cbn [andb].
  by rewrite IH.
Qed.

Lemma replace_pair_length a b r (s : jsstring) :
  (length (replace_pair a b r s) ≤ length s)%nat.
Proof.
  remember (length s) as n eqn:Hn.
  revert s Hn. induction (lt_wf n) as [n _ IH]. intros s ->.
  destruct s as [|x [|y s]]; [done..|].
  rewrite replace_pair_cons2. destruct (_ && _); cbn [length].
  - specialize (IH (length s) ltac:(simpl; lia) s eq_refl). lia.
  - specialize (IH (length (y :: s)) ltac:(simpl; lia) (y :: s) eq_refl).
    cbn [length] in IH. lia.
Qed.

Lemma replace_pair_nonempty a b r (s : jsstring) :
  s ≠ [] → replace_pair a b r s ≠ [].
Proof.
  destruct s as [|x [|y s]]; [done..|]. intros _.
  rewrite replace_pair_cons2. by destruct (_ && _).
Qed.

Lemma unescapeString_nonempty (s : jsstring) : s ≠ [] → unescapeString s ≠ [].
Proof.
  intros Hs. unfold unescapeString.
  apply replace_pair_nonempty, replace_pair_nonempty, replace_pair_nonempty, Hs.
Qed.

End UnescapeMore.

(** X7. A string without a backslash is its own unescaped form. *)
Theorem unescapeString_without_backslash (s : jsstring) :
  BACKSLASH ∉ s → unescapeString s = s.
Proof.
  intros Hs. unfold unescapeString.
  by do 3 rewrite (replace_pair_absent _ _ _ s) by done.
Qed.

Lemma unescapeString_without_backslash_witness :
  unescapeString (str "hello.world") = str "hello.world".
Proof.
  apply unescapeString_without_backslash. vm_compute.
  intros H. repeat (apply elem_of_cons in H as [H|H]; [discriminate H|]).
  by apply elem_of_nil in H.
Defined.

(** X8. Unescaping only ever removes units: the result is never longer than the
    captured content. *)
Theorem unescapeString_never_longer (s : jsstring) :
  (length (unescapeString s) ≤ length s)%nat.
Proof.
  unfold unescapeString.
  etrans; [apply replace_pair_length|].
  etrans; [apply replace_pair_length|]. apply replace_pair_length.
Qed.

Section ExtractMore.

(** Every group that [exec] reports is a piece of the source. *)
Lemma substring_infix (source : jsstring) a b :
  ∃ l1 l2, source = l1 ++ substring source a b ++ l2.
Proof.
  unfold substring. exists (take a source), (drop (b - a) (drop a source)).
  by rewrite take_drop, take_drop.
Qed.

Lemma exec_infix re (source : jsstring) m re' i (s : jsstring) :
  exec re source = (Some m, re') → m !! i = Some (Some s) →
  ∃ l1 l2, source = l1 ++ s ++ l2.
Proof.
  unfold exec. destruct (match_from _ _ _ _) as [[j y]|]; [|done].
  intros [= <- <-] Hi. rewrite list_lookup_fmap in Hi.
  destruct (_ !! i) as [[[a b]|]|]; try done.
  cbn in Hi. injection Hi as <-. apply substring_infix.
Qed.

Lemma captured_key_lookup (m : MatchArray) (key : jsstring) :
  captured_key m = Some key → ∃ i, m !! i = Some (Some key).
Proof.
  unfold captured_key. destruct (m !! 2%nat) as [[k|]|] eqn:H2.
  - intros [= <-]. eauto.
  - destruct (m !! 1%nat) as [[k|]|] eqn:H1; [|done..]. intros [= <-]. eauto.
  - destruct (m !! 1%nat) as [[k|]|] eqn:H1; [|done..]. intros [= <-]. eauto.
Qed.

(** What holds of every key that the loops of [extractKeys] add holds of
    every key they return. *)
Lemma exec_loop_keys (P : jsstring → Prop) (source : jsstring) :
  (∀ raw l1 l2, source = l1 ++ raw ++ l2 → raw ≠ [] → includes raw LF = false →
     P (unescapeString raw)) →
  ∀ rounds re keys, Forall P keys → Forall P (exec_loop rounds re source keys).1.
Proof.
  intros HP. induction rounds as [|rounds IH]; intros re keys Hkeys; [done|].
  cbn [exec_loop]. destruct (exec re source) as [[m|] re'] eqn:Hex; [|done].
  apply IH. unfold add_match.
  destruct (captured_key m) as [key|] eqn:Hkey; [|done].
  case_bool_decide as Hne; cbn [negb andb]; [done|].
  destruct (includes key LF) eqn:Hlf; cbn [negb]; [done|].
  apply captured_key_lookup in Hkey as [i Hi].
  destruct (exec_infix _ _ _ _ _ _ Hex Hi) as (l1 & l2 & Hsrc).
  apply Forall_forall. intros k [Hin| ->]%Set_add_elem.
  - rewrite Forall_forall in Hkeys. by apply Hkeys.
  - by eapply HP.
Qed.

Lemma extractKeys_with_keys (P : jsstring → Prop) (source : jsstring) :
  (∀ raw l1 l2, source = l1 ++ raw ++ l2 → raw ≠ [] → includes raw LF = false →
     P (unescapeString raw)) →
  ∀ res keys, Forall P keys → Forall P (extractKeys_with res source keys).1.
Proof.
  intros HP. induction res as [|re res IH]; intros keys Hkeys; [done|].
  cbn [extractKeys_with].
  pose proof (exec_loop_keys P source HP (S (length source)) re keys Hkeys) as H1.
  destruct (exec_loop _ re source keys) as [keys' re'].
  specialize (IH keys' H1).
  by destruct (extractKeys_with res source keys') as [keys'' res''].
Qed.

Lemma Set_add_NoDup (k : jsstring) (keys : JsSet) :
  NoDup keys → NoDup (Set_add k keys).
Proof.
  intros Hnd. unfold Set_add. case_bool_decide; [done|].
  apply NoDup_app. split_and!; [done| |apply NoDup_singleton].
  intros x Hx ->%list_elem_of_singleton. done.
Qed.

Lemma add_match_NoDup (keys : JsSet) (m : MatchArray) :
  NoDup keys → NoDup (add_match keys m).
Proof.
  intros Hnd. unfold add_match. destruct (captured_key m); [|done].
  destruct (_ && _); [|done]. by apply Set_add_NoDup.
Qed.

Lemma exec_loop_NoDup rounds re (source : jsstring) (keys : JsSet) :
  NoDup keys → NoDup (exec_loop rounds re source keys).1.
Proof.
  revert re keys. induction rounds as [|rounds IH]; intros re keys Hnd; [done|].
  cbn [exec_loop]. destruct (exec re source) as [[m|] re']; [|done].
  apply IH. by apply add_match_NoDup.
Qed.

Lemma extractKeys_with_NoDup res (source : jsstring) (keys : JsSet) :
  NoDup keys → NoDup (extractKeys_with res source keys).1.
Proof.
  revert keys. induction res as [|re res IH]; intros keys Hnd; [done|].
  cbn [extractKeys_with].
  pose proof (exec_loop_NoDup (S (length source)) re source keys Hnd) as H1.
  destruct (exec_loop _ re source keys) as [keys' re'].
  specialize (IH keys' H1).
  by destruct (extractKeys_with res source keys') as [keys'' res''].
Qed.

End ExtractMore.

(** X2. Every key that [extractKeys] returns is the unescaped form of a
    non-empty, newline-free piece of the source text: no key is made up. *)
Theorem extractKeys_keys_from_source (source k : jsstring) :
  k ∈ extractKeys source →
  ∃ raw l1 l2, source = l1 ++ raw ++ l2 ∧ raw ≠ []
               ∧ includes raw LF = false ∧ k = unescapeString raw.
Proof.
  intros Hk. unfold extractKeys in Hk.
  assert (H : Forall
    (λ k, ∃ raw l1 l2, source = l1 ++ raw ++ l2 ∧ raw ≠ []
                       ∧ includes raw LF = false ∧ k = unescapeString raw)
    (extractKeys_with CALL_PATTERNS source []).1).
  { apply extractKeys_with_keys; [|apply Forall_nil_2].
    intros raw l1 l2 Hsrc Hne Hlf. by exists raw, l1, l2. }
  rewrite Forall_forall in H. by apply H.
Qed.

Lemma extractKeys_keys_from_source_witness :
  ∃ raw l1 l2, str "x = __('a\'b');" = l1 ++ raw ++ l2 ∧ raw ≠ []
               ∧ includes raw LF = false ∧ str "a'b" = unescapeString raw.
Proof.
  apply (extractKeys_keys_from_source (str "x = __('a\'b');") (str "a'b")).
  vm_compute. apply list_elem_of_here.
Defined.

(** X3. The empty string is never a key. *)
Theorem extractKeys_no_empty_key (source k : jsstring) :
  k ∈ extractKeys source → k ≠ [].
Proof.
  intros Hk. unfold extractKeys in Hk.
  assert (H : Forall (λ k, k ≠ []) (extractKeys_with CALL_PATTERNS source []).1).
  { apply extractKeys_with_keys; [|apply Forall_nil_2].
    intros raw l1 l2 _ Hne _. by apply unescapeString_nonempty. }
  rewrite Forall_forall in H. by apply H.
Qed.

Lemma extractKeys_no_empty_key_witness : str "a" ≠ [].
Proof.
  apply (extractKeys_no_empty_key (str "trans('')__('a')")).
  vm_compute. apply list_elem_of_here.
Defined.

(** X4. The keys of one source text come without repetition, however often a
    key is used in it. *)
Theorem extractKeys_NoDup (source : jsstring) : NoDup (extractKeys source).
Proof. apply extractKeys_with_NoDup, NoDup_nil_2. Qed.

Section CollectKeys.

Lemma foldl_Set_add_elem (ks found : JsSet) (k : jsstring) :
  k ∈ foldl (λ acc k, Set_add k acc) found ks ↔ k ∈ found ∨ k ∈ ks.
Proof.
  revert found. induction ks as [|k' ks IH]; intros found; cbn [foldl].
  - split; [by left|]. intros [?|?%elem_of_nil]; done.
  - rewrite IH, Set_add_elem, elem_of_cons. tauto.
Qed.

Lemma foldl_Set_add_NoDup (ks found : JsSet) :
  NoDup found → NoDup (foldl (λ acc k, Set_add k acc) found ks).
Proof.
  revert found. induction ks as [|k' ks IH]; intros found Hnd; [done|].
  cbn [foldl]. by apply IH, Set_add_NoDup.
Qed.

Lemma collect_loop_elem (contents : list (option jsstring)) (found : JsSet)
    (k : jsstring) :
  k ∈ foldl (λ found content,
               match content with
               | Some text => foldl (λ acc k, Set_add k acc) found (extractKeys text)
               | None => found
               end) found contents
  ↔ k ∈ found ∨ ∃ text, Some text ∈ contents ∧ k ∈ extractKeys text.
Proof.
  revert found. induction contents as [|c contents IH]; intros found; cbn [foldl].
  - split; [by left|]. intros [?|(text & ?%elem_of_nil & _)]; done.
  - rewrite IH. destruct c as [text|].
    + rewrite foldl_Set_add_elem. split.
      * intros [[?|?]|(t & ? & ?)]; [by left|right..].
        -- exists text. split; [apply list_elem_of_here|done].
        -- exists t. split; [by apply list_elem_of_further|done].
      * intros [?|(t & [Ht|Ht]%elem_of_cons & ?)]; [by left; left| |].
        -- injection Ht as ->. by left; right.
        -- right. by exists t.
    + split.
      * intros [?|(t & ? & ?)]; [by left|right].
        exists t. split; [by apply list_elem_of_further|done].
      * intros [?|(t & [Ht|Ht]%elem_of_cons & ?)]; [by left|done|].
        right. by exists t.
Qed.

Lemma collect_loop_NoDup (contents : list (option jsstring)) (found : JsSet) :
  NoDup found →
  NoDup (foldl (λ found content,
                  match content with
                  | Some text => foldl (λ acc k, Set_add k acc) found (extractKeys text)
                  | None => found
                  end) found contents).
Proof.
  revert found. induction contents as [|c contents IH]; intros found Hnd; [done|].
  cbn [foldl]. apply IH. destruct c; [|done]. by apply foldl_Set_add_NoDup.
Qed.

End CollectKeys.

(** X9. The keys found by a run are the keys of the files that could be read:
    a key is found exactly when some readable file has it, and a file that
    could not be read adds nothing. *)
Theorem collect_keys_union (contents : list (option jsstring)) (k : jsstring) :
  k ∈ collect_keys contents ↔ ∃ text, Some text ∈ contents ∧ k ∈ extractKeys text.
Proof.
  unfold collect_keys. rewrite collect_loop_elem.
  split; [intros [?%elem_of_nil|?]; done|by right].
Qed.

(** X10. A key used in several files is found once. *)
Theorem collect_keys_NoDup (contents : list (option jsstring)) :
  NoDup (collect_keys contents).
Proof. apply collect_loop_NoDup, NoDup_nil_2. Qed.

Section RunScanMore.

Lemma load_loop_failure (store : LocaleStore) (l1 l2 : list jsstring)
    (l msg : jsstring) (o0 : LocaleObject) :
  Forall (λ l, ∀ msg, store l ≠ Malformed msg) l1 →
  store l = Malformed msg →
  for_of (load_step store) (l1 ++ l :: l2) o0 = inl (ParseFailure l msg).
Proof.
  intros Hok Hbad. revert o0.
  induction Hok as [|l' l1 Hl' _ IH]; intros o0; cbn [app for_of].
  - unfold load_step, loadLocaleFile. by rewrite Hbad.
  - unfold load_step at 1.
    assert (∃ d, loadLocaleFile store l' = inr d) as [d ->]; [|apply IH].
    unfold loadLocaleFile. destruct (store l') eqn:E; eauto. by destruct (Hl' msg0).
Qed.



(** A locale of the name [__proto__] whose file has a key of that name:
    the dictionary becomes the prototype of [localeData], and what the
    loops then read for the locale is the string under that key.  With a
    key found in the sources the reconciliation loop throws. *)
Example runScan_proto_locale_throws :
  runScan (mkOptions [] (str "lang") [str "__proto__"] (str "en") copy false true)
          [Some (str "__('a')")]
          (λ _, JsonObject [(str "__proto__", str "ab")])
  = inl TypeError.
Proof. vm_compute. reflexivity. Qed.

(** With no key found the loop body never runs, and the string is saved
    as the object of its code units. *)
Example runScan_proto_locale_saves_string :
  ∃ res data,
    runScan (mkOptions [] (str "lang") [str "__proto__"] (str "en") copy false true)
            [] (λ _, JsonObject [(str "__proto__", str "ab")])
    = inr (res, data,
           [(str "__proto__",
             let quoted (s : string) := [DQUOTE] ++ str s ++ [DQUOTE] in
             str "{" ++ [LF] ++ str "  " ++ quoted "0"%string ++ str ": "
             ++ quoted "a"%string ++ str "," ++ [LF]
             ++ str "  " ++ quoted "1"%string ++ str ": "
             ++ quoted "b"%string ++ [LF] ++ str "}" ++ [LF])])
    ∧ data = ∅.
Proof. do 2 eexists. split; vm_compute; reflexivity. Qed.

End RunScanMore.

(** X11. A locale file that does not parse aborts the run with an error that
    names the first such locale, whatever the sources hold; no result is
    returned and nothing is written. *)
Theorem runScan_parse_failure (opts : ScanOptions)
    (contents : list (option jsstring)) (store : LocaleStore)
    (l1 l2 : list jsstring) (l msg : jsstring) :
  locales opts = l1 ++ l :: l2 →
  Forall (λ l, ∀ msg, store l ≠ Malformed msg) l1 →
  store l = Malformed msg →
  runScan opts contents store = inl (ParseFailure l msg).
Proof.
  intros Hlocs Hok Hbad. unfold runScan, load_all. rewrite Hlocs.
  by rewrite (load_loop_failure store l1 l2 l msg).
Qed.

Lemma runScan_parse_failure_witness :
  runScan (mkOptions [] (str "lang") [str "en"; str "de"] (str "en") copy false true)
          [Some (str "__('a')")]
          (λ l, if bool_decide (l = str "de") then Malformed (str "Unexpected token")
                else NoFile)
  = inl (ParseFailure (str "de") (str "Unexpected token")).
Proof.
  apply (runScan_parse_failure _ _ _ [str "en"] []); [reflexivity| |reflexivity].
  repeat constructor. intros msg. discriminate.
Defined.





Section Counts.

Lemma sum_counts_alter (m : gmap jsstring nat) (l : jsstring) (n : nat) :
  m !! l = Some n → sum_counts (alter S l m) = S (sum_counts m).
Proof.
  intros Hl. unfold sum_counts.
  rewrite (map_fold_delete_L _ _ l (S n) (alter S l m)).
  - rewrite (map_fold_delete_L _ _ l n m); [|intros; lia|done].
    by rewrite delete_alter_eq.
  - intros. lia.
  - by rewrite lookup_alter_eq, Hl.
Qed.

Lemma sum_counts_zero (m : gmap jsstring nat) :
  (∀ l n, m !! l = Some n → n = 0%nat) → sum_counts m = 0%nat.
Proof.
  unfold sum_counts. induction m as [|l n m Hl _ IH] using map_first_key_ind.
  - by rewrite map_fold_empty.
  - intros Hz. rewrite map_fold_insert_L; [|intros; lia|done].
    rewrite (Hz l n) by apply lookup_insert_eq. rewrite IH; [done|].
    intros l' n' Hl'. apply (Hz l'). rewrite lookup_insert_ne; [done|].
    intros ->. congruence.
Qed.

Variables (mst : jsstring) (ph : Placeholder).
Variables (locs : list jsstring) (data : gmap jsstring LocaleMap).

(** What the counters mean while the loop runs: the counter of a locale is
    the number of entries its dictionary has gained, and the total is the
    sum of the counters. *)
Let counted (st : ScanState) : Prop :=
  (∀ loc, loc ∈ locs →
     ∃ d0 d n, data !! loc = Some d0 ∧ localeData st !! loc = Some d
               ∧ perLocaleCounts st !! loc = Some n
               ∧ length d = (length d0 + n)%nat)
  ∧ addedTotal st = sum_counts (perLocaleCounts st).

Lemma visit_counted key st loc st' :
  counted st → loc ∈ locs → visit mst ph key st loc = inr st' → counted st'.
Proof.
  intros [Hloc Hsum] Hin. unfold visit.
  destruct (localeData st !! loc) as [dict|] eqn:Hd; [|done].
  destruct (HasProperty key dict) eqn:Hk; intros [= <-]; [done|].
  destruct (Hloc loc Hin) as (d0 & d & n & Hd0 & Hd' & Hn & Hlen).
  rewrite Hd in Hd'. injection Hd' as <-. split; cbn.
  - intros loc' Hin'. destruct (decide (loc = loc')) as [<-|Hne].
    + exists d0, (Set_property key (new_value loc mst ph key) dict), (S n).
      rewrite lookup_insert_eq, lookup_alter_eq, Hn.
      split_and!; [done..|].
      rewrite Set_property_absent by done. rewrite length_app. cbn. lia.
    + rewrite lookup_insert_ne, lookup_alter_ne by done. by apply Hloc.
  - rewrite (sum_counts_alter _ _ n) by done. by rewrite Hsum.
Qed.

Lemma for_of_visit_counted key ls st st' :
  counted st → ls ⊆ locs →
  for_of (visit mst ph key) ls st = inr st' → counted st'.
Proof.
  revert st. induction ls as [|l ls IH]; intros st Hst Hsub; cbn [for_of].
  - by intros [= <-].
  - destruct (visit mst ph key st l) as [e|st1] eqn:Hv; [done|].
    apply IH.
    + eapply visit_counted; [done| |done]. apply Hsub, list_elem_of_here.
    + intros x Hx. by apply Hsub, list_elem_of_further.
Qed.

Lemma for_of_keys_counted keys st st' :
  counted st →
  for_of (λ st key, for_of (visit mst ph key) locs st) keys st = inr st' →
  counted st'.
Proof.
  revert st. induction keys as [|key keys IH]; intros st Hst; cbn [for_of].
  - by intros [= <-].
  - destruct (for_of (visit mst ph key) locs st) as [e|st1] eqn:Hv; [done|].
    apply IH. by eapply for_of_visit_counted.
Qed.

Lemma reconcile_counted keys st :
  Forall (λ l, is_Some (data !! l)) locs →
  reconcile keys locs mst ph data = inr st → counted st.
Proof.
  intros Hdom. unfold reconcile. apply for_of_keys_counted. split; cbn.
  - intros loc Hin. rewrite Forall_forall in Hdom.
    destruct (Hdom loc Hin) as [d0 Hd0]. exists d0, d0, 0%nat.
    split_and!; [done..| |lia].
    apply elem_of_list_to_map_1'.
    + intros y Hy. apply list_elem_of_fmap in Hy as (l' & [= -> ->] & _). done.
    + apply list_elem_of_fmap. by exists loc.
  - symmetry. apply sum_counts_zero. intros l n Hl.
    apply elem_of_list_to_map_2 in Hl.
    by apply list_elem_of_fmap in Hl as (l' & [= -> ->] & _).
Qed.

End Counts.

(** X14. The counter reported for a locale is the number of entries its
    dictionary gained in the run. *)
Theorem reconcile_counts_entries (keys locs : list jsstring) (mst : jsstring)
    (ph : Placeholder) (data : gmap jsstring LocaleMap) :
  Forall (λ l, is_Some (data !! l)) locs →
  ∃ st, reconcile keys locs mst ph data = inr st
    ∧ ∀ loc d0 d, loc ∈ locs → data !! loc = Some d0 →
        localeData st !! loc = Some d →
        perLocaleCounts st !! loc = Some (length d - length d0)%nat
        ∧ (length d0 ≤ length d)%nat.
Proof.
  intros Hdom.
  destruct (reconcile_spec mst ph keys locs data Hdom) as (st & Hst & _).
  exists st. split; [done|]. intros loc d0 d Hin Hd0 Hd.
  destruct (reconcile_counted mst ph locs data keys st Hdom Hst) as [Hloc _].
  destruct (Hloc loc Hin) as (d0' & d' & n & Hd0' & Hd' & Hn & Hlen).
  rewrite Hd0 in Hd0'. injection Hd0' as <-.
  rewrite Hd in Hd'. injection Hd' as <-.
  rewrite Hn. split; [f_equal|]; lia.
Qed.

Lemma reconcile_counts_entries_witness :
  ∃ st, reconcile [str "a"; str "b"] [str "en"; str "de"] (str "en") copy
          (<[str "en" := [(str "a", str "Hello")]]> (<[str "de" := []]> ∅)) = inr st
    ∧ ∀ loc d0 d, loc ∈ [str "en"; str "de"] →
        (<[str "en" := [(str "a", str "Hello")]]> (<[str "de" := []]> ∅) : gmap jsstring LocaleMap)
          !! loc = Some d0 →
        localeData st !! loc = Some d →
        perLocaleCounts st !! loc = Some (length d - length d0)%nat
        ∧ (length d0 ≤ length d)%nat.
Proof.
  apply (reconcile_counts_entries [str "a"; str "b"] [str "en"; str "de"]).
  repeat constructor; vm_compute; eauto.
Defined.

(** X15. The total of added entries is the sum of the per-locale counters. *)
Theorem reconcile_total_is_sum (keys locs : list jsstring) (mst : jsstring)
    (ph : Placeholder) (data : gmap jsstring LocaleMap) :
  Forall (λ l, is_Some (data !! l)) locs →
  ∃ st, reconcile keys locs mst ph data = inr st
    ∧ addedTotal st = sum_counts (perLocaleCounts st).
Proof.
  intros Hdom.
  destruct (reconcile_spec mst ph keys locs data Hdom) as (st & Hst & _).
  exists st. split; [done|].
  by destruct (reconcile_counted mst ph locs data keys st Hdom Hst) as [_ Hsum].
Qed.

Lemma reconcile_total_is_sum_witness :
  ∃ st, reconcile [str "a"; str "b"] [str "en"; str "de"] (str "en") copy
          (<[str "en" := [(str "a", str "Hello")]]> (<[str "de" := []]> ∅)) = inr st
    ∧ addedTotal st = sum_counts (perLocaleCounts st).
Proof.
  apply (reconcile_total_is_sum [str "a"; str "b"] [str "en"; str "de"]).
  repeat constructor; vm_compute; eauto.
Defined.

Section StringOrder.

Implicit Types s t u : jsstring.

Lemma str_ltb_irrefl s : str_ltb s s = false.
Proof.
  induction s as [|a s IH]; [done|]. cbn [str_ltb].
  by rewrite N.ltb_irrefl, N.eqb_refl, IH.
Qed.

Lemma str_ltb_trans s t u :
  str_ltb s t = true → str_ltb t u = true → str_ltb s u = true.
Proof.
  revert t u. induction s as [|a s IH]; intros [|b t] [|c u]; try done.
  cbn [str_ltb]. rewrite !orb_true_iff, !andb_true_iff, !N.ltb_lt, !N.eqb_eq.
  intros [Hab|[-> Hst]] [Hbc|[-> Htu]].
  - left. lia.
  - by left.
  - by left.
  - right. split; [done|]. by eapply IH.
Qed.

Lemma str_ltb_connex s t :
  str_ltb s t = false → str_ltb t s = false → s = t.
Proof.
  revert t. induction s as [|a s IH]; intros [|b t]; try done.
  cbn [str_ltb].
  rewrite !orb_false_iff, !andb_false_iff, !N.ltb_ge, !N.eqb_neq.
  intros [Hba H1] [Hab H2].
  assert (a = b) as -> by lia. f_equal. apply IH.
  - by destruct H1.
  - by destruct H2.
Qed.

Lemma str_ltb_asym s t : str_ltb s t = true → str_ltb t s = false.
Proof.
  intros Hst. destruct (str_ltb t s) eqn:Hts; [|done].
  by rewrite <- (str_ltb_irrefl s), (str_ltb_trans s t s).
Qed.

(** [s <= t], the comparison [sort] sorts by. *)
Lemma not_str_ltb s t :
  str_ltb t s = false ↔ s = t ∨ str_ltb s t = true.
Proof.
  split.
  - intros Hts. destruct (str_ltb s t) eqn:Hst; [by right|left].
    by apply str_ltb_connex.
  - intros [->|Hst]; [apply str_ltb_irrefl|by apply str_ltb_asym].
Qed.

End StringOrder.

Section InsertionSort.

Context {A : Type} (leb : A → A → bool).
Hypothesis leb_total : ∀ x y, leb x y = false → leb y x = true.
Hypothesis leb_trans : ∀ x y z, leb x y = true → leb y z = true → leb x z = true.

Lemma insert_sorted_Permutation (x : A) (l : list A) :
  insert_sorted leb x l ≡ₚ x :: l.
Proof.
  induction l as [|y l IH]; [done|]. cbn [insert_sorted].
  destruct (leb x y); [done|]. rewrite IH. apply perm_swap.
Qed.

Lemma insertion_sort_Permutation (l : list A) : insertion_sort leb l ≡ₚ l.
Proof.
  unfold insertion_sort. induction l as [|x l IH]; [done|].
  cbn [foldr]. by rewrite insert_sorted_Permutation, IH.
Qed.

Lemma insert_sorted_StronglySorted (x : A) (l : list A) :
  StronglySorted (λ a b, leb a b = true) l →
  StronglySorted (λ a b, leb a b = true) (insert_sorted leb x l).
Proof.
  induction l as [|y l IH]; intros Hl; cbn [insert_sorted].
  - repeat constructor.
  - apply StronglySorted_cons in Hl as [Hy Hl].
    destruct (leb x y) eqn:Hxy.
    + apply StronglySorted_cons. split; [|by apply StronglySorted_cons].
      constructor; [done|]. eapply Forall_impl; [exact Hy|].
      intros z Hz. by eapply leb_trans.
    + apply StronglySorted_cons. split; [|by apply IH].
      rewrite insert_sorted_Permutation. constructor; [|done].
      by apply leb_total.
Qed.

Lemma insertion_sort_StronglySorted (l : list A) :
  StronglySorted (λ a b, leb a b = true) (insertion_sort leb l).
Proof.
  unfold insertion_sort. induction l as [|x l IH]; cbn [foldr].
  - constructor.
  - by apply insert_sorted_StronglySorted.
Qed.

End InsertionSort.

Lemma StronglySorted_filter_keys (R : relation (list N))
    (P : list N → Prop) `{!∀ k, Decision (P k)} (l : list (list N)) :
  StronglySorted R l → StronglySorted R (filter P l).
Proof.
  induction 1 as [|x l Hl IH Hx]; [constructor|].
  rewrite filter_cons. destruct (decide (P x)); [|done].
  constructor; [done|]. apply Forall_forall. intros y [_ Hy]%list_elem_of_filter.
  rewrite Forall_forall in Hx. by apply Hx.
Qed.

Section ArraySort.

Lemma Array_sort_Permutation (keys : list jsstring) : Array_sort keys ≡ₚ keys.
Proof. apply insertion_sort_Permutation. Qed.

(** Distinct strings come out of [sort] in strictly ascending order. *)
Lemma Array_sort_StronglySorted (keys : list jsstring) :
  NoDup keys → StronglySorted str_lt (Array_sort keys).
Proof.
  intros Hnd.
  assert (Hle : StronglySorted (λ s t, negb (str_ltb t s) = true) (Array_sort keys)).
  { apply insertion_sort_StronglySorted.
    - intros s t. rewrite negb_false_iff, negb_true_iff. apply str_ltb_asym.
    - intros s t u. rewrite !negb_true_iff, !not_str_ltb.
      intros [->|Hst] [->|Htu]; eauto. right. by eapply str_ltb_trans. }
  assert (Hnd' : NoDup (Array_sort keys)) by by rewrite Array_sort_Permutation.
  induction Hle as [|s l Hl IH Hs]; [constructor|].
  apply NoDup_cons in Hnd' as [Hs' Hnd']. constructor; [by apply IH|].
  apply Forall_forall. intros t Ht. rewrite Forall_forall in Hs.
  specialize (Hs t Ht). apply negb_true_iff, not_str_ltb in Hs as [->|Hs]; done.
Qed.

End ArraySort.

Section Saving.

Implicit Types (k v : jsstring) (o obj acc : LocaleMap).

Lemma index_keys_fst_snd (keys : list jsstring) :
  (omap (λ k, (λ n, (n, k)) <$> array_index k) keys).*2
  ++ filter (λ k, array_index k = None) keys ≡ₚ keys.
Proof.
  induction keys as [|k keys IH]; [done|]. cbn [omap list_omap].
  rewrite filter_cons. destruct (array_index k) as [n|] eqn:Hk.
  - cbn. rewrite decide_False by done. by rewrite IH.
  - cbn. rewrite decide_True by done.
    by rewrite <- Permutation_middle, IH.
Qed.

(** The own names of an object, in some order. *)
Lemma OwnPropertyKeys_Permutation o : OwnPropertyKeys o ≡ₚ o.*1.
Proof.
  unfold OwnPropertyKeys. rewrite <- (index_keys_fst_snd o.*1) at 3.
  apply Permutation_app; [|done].
  apply fmap_Permutation, insertion_sort_Permutation.
Qed.

(** Without array indices among them, the own names come in creation
    order. *)
Lemma OwnPropertyKeys_no_index o :
  Forall (λ k, array_index k = None) o.*1 → OwnPropertyKeys o = o.*1.
Proof.
  unfold OwnPropertyKeys. generalize (o.*1). intros keys Hkeys.
  assert (omap (λ k, (λ n, (n, k)) <$> array_index k) keys = []) as ->.
  { induction Hkeys as [|k keys Hk _ IH]; [done|].
    cbn [omap list_omap]. by rewrite Hk. }
  cbn. induction Hkeys as [|k keys Hk _ IH]; [done|].
  rewrite filter_cons, decide_True by done. by rewrite IH.
Qed.

Lemma Set_property_new k v acc :
  k ∉ acc.*1 →
  Set_property k v acc =
  if bool_decide (k = str "__proto__") then acc else acc ++ [(k, v)].
Proof.
  intros Hk. unfold Set_property, has_own. by rewrite bool_decide_eq_false_2.
Qed.

(** The [reduce] of [saveLocaleFile] appends the names it is given one by
    one, except [__proto__], which the assignment does not create. *)
Lemma reduce_spec (value : jsstring → jsstring) (keys : list jsstring) acc :
  NoDup keys → (∀ k, k ∈ keys → k ∉ acc.*1) →
  foldl (λ acc k, Set_property k (value k) acc) acc keys
  = acc ++ ((λ k, (k, value k)) <$> filter (λ k, k ≠ str "__proto__") keys).
Proof.
  revert acc. induction keys as [|k keys IH]; intros acc Hnd Hfresh.
  - by rewrite app_nil_r.
  - apply NoDup_cons in Hnd as [Hk Hnd]. cbn [foldl].
    rewrite Set_property_new by (apply Hfresh, list_elem_of_here).
    rewrite filter_cons. case_bool_decide as Hp.
    + rewrite decide_False by (by intros ?). apply IH; [done|].
      intros k' Hk'. by apply Hfresh, list_elem_of_further.
    + rewrite decide_True by done. rewrite IH; [|done|].
      * by rewrite <- app_assoc.
      * intros k' Hk'. rewrite fmap_app, elem_of_app. intros [Hin|Hin].
        -- revert Hin. by apply Hfresh, list_elem_of_further.
        -- cbn in Hin. apply list_elem_of_singleton in Hin as ->. done.
Qed.

Lemma sorted_copy_spec obj :
  NoDup obj.*1 →
  sorted_copy obj
  = (λ k, (k, default [] (get_own k obj)))
      <$> filter (λ k, k ≠ str "__proto__") (Array_sort (OwnPropertyKeys obj)).
Proof.
  intros Hnd. unfold sorted_copy. rewrite reduce_spec; [done| |].
  - by rewrite Array_sort_Permutation, OwnPropertyKeys_Permutation.
  - intros k _. apply not_elem_of_nil.
Qed.

Lemma sorted_copy_keys obj :
  NoDup obj.*1 →
  (sorted_copy obj).*1
  = filter (λ k, k ≠ str "__proto__") (Array_sort (OwnPropertyKeys obj)).
Proof.
  intros Hnd. rewrite sorted_copy_spec by done.
  rewrite <- list_fmap_compose. apply list_fmap_id.
Qed.

Lemma get_own_fmap (value : jsstring → jsstring) (keys : list jsstring) k :
  get_own k ((λ k, (k, value k)) <$> keys)
  = if bool_decide (k ∈ keys) then Some (value k) else None.
Proof.
  induction keys as [|k' keys IH]; [done|]. cbn [fmap list_fmap get_own].
  destruct (decide (k' = k)) as [->|Hk].
  - rewrite (bool_decide_eq_true_2 (k = k)) by done.
    by rewrite bool_decide_eq_true_2 by apply list_elem_of_here.
  - rewrite (bool_decide_eq_false_2 (k' = k)) by done. rewrite IH.
    erewrite bool_decide_ext; [done|]. rewrite elem_of_cons.
    split; [by right|]. intros [?|?]; [congruence|done].
Qed.

End Saving.

(** X17. Saving keeps the value of every key, with one exception: a key named
    [__proto__] (which only an existing locale file can bring in) is not
    written. *)
Theorem sorted_copy_keeps_values (obj : LocaleMap) (k : jsstring) :
  NoDup obj.*1 →
  get_own k (sorted_copy obj)
  = if bool_decide (k = str "__proto__") then None else get_own k obj.
Proof.
  intros Hnd. rewrite sorted_copy_spec, get_own_fmap by done.
  destruct (decide (k = str "__proto__")) as [Hp|Hp].
  - rewrite (bool_decide_eq_true_2 (k = _)) by done.
    rewrite bool_decide_eq_false_2; [done|].
    intros [? _]%list_elem_of_filter. done.
  - rewrite (bool_decide_eq_false_2 (k = _)) by done.
    destruct (get_own k obj) as [v|] eqn:Hk.
    + rewrite bool_decide_eq_true_2; [done|].
      apply list_elem_of_filter. split; [done|].
      rewrite Array_sort_Permutation, OwnPropertyKeys_Permutation.
      assert (H : has_own k obj = true) by (apply has_own_get; eauto).
      unfold has_own in H. by apply bool_decide_eq_true in H.
    + rewrite bool_decide_eq_false_2; [done|].
      intros [_ Hin]%list_elem_of_filter.
      rewrite Array_sort_Permutation, OwnPropertyKeys_Permutation in Hin.
      apply has_own_false_get in Hk. unfold has_own in Hk.
      by apply bool_decide_eq_false in Hk.
Qed.

Lemma sorted_copy_keeps_values_witness :
  get_own (str "b") (sorted_copy [(str "b", str "B"); (str "10", str "ten");
                                  (str "a", str "A")])
  = get_own (str "b") [(str "b", str "B"); (str "10", str "ten"); (str "a", str "A")].
Proof.
  apply (sorted_copy_keeps_values
           [(str "b", str "B"); (str "10", str "ten"); (str "a", str "A")] (str "b")).
  vm_compute. repeat constructor; intros H;
    repeat (apply elem_of_cons in H as [H|H]; [discriminate H|]);
    by apply elem_of_nil in H.
Defined.

(** X18. For a dictionary without array-index names the keys are written in
    strictly ascending order of their code units, and they are the keys of
    the dictionary other than [__proto__]. *)
Theorem serialized_keys_sorted (obj : LocaleMap) :
  NoDup obj.*1 →
  Forall (λ k, array_index k = None) obj.*1 →
  StronglySorted str_lt (serialized_keys obj)
  ∧ ∀ k, k ∈ serialized_keys obj ↔ k ∈ obj.*1 ∧ k ≠ str "__proto__".
Proof.
  intros Hnd Hidx. unfold serialized_keys.
  assert (Hkeys : OwnPropertyKeys (sorted_copy obj)
                  = filter (λ k, k ≠ str "__proto__") (Array_sort obj.*1)).
  { rewrite OwnPropertyKeys_no_index; rewrite sorted_copy_keys by done;
      rewrite (OwnPropertyKeys_no_index obj) by done; [done|].
    apply Forall_forall. intros k [_ Hk]%list_elem_of_filter.
    rewrite Array_sort_Permutation in Hk.
    rewrite Forall_forall in Hidx. by apply Hidx. }
  rewrite Hkeys. split.
  - apply StronglySorted_filter_keys, Array_sort_StronglySorted, Hnd.
  - intros k. rewrite list_elem_of_filter, Array_sort_Permutation. tauto.
Qed.

Lemma serialized_keys_sorted_witness :
  StronglySorted str_lt
    (serialized_keys [(str "b", str "B"); (str "__proto__", str "p"); (str "a", str "A")])
  ∧ ∀ k, k ∈ serialized_keys [(str "b", str "B"); (str "__proto__", str "p");
                               (str "a", str "A")]
         ↔ k ∈ [(str "b", str "B"); (str "__proto__", str "p"); (str "a", str "A")].*1
           ∧ k ≠ str "__proto__".
Proof.
  apply serialized_keys_sorted.
  - vm_compute. repeat constructor; intros H;
      repeat (apply elem_of_cons in H as [H|H]; [discriminate H|]);
      by apply elem_of_nil in H.
  - repeat constructor.
Defined.

Section FirstCall.

Variable Input : jsstring.
Variable f : nat.

Lemma step_char ch x c :
  Input !! endIndex x = Some ch →
  compile_fuel Input f (Char ch) x c = c (mkState (S (endIndex x)) (captures x)).
Proof.
  intros H. cbn [compile_fuel]. unfold CharacterSetMatcher.
  by rewrite H, N.eqb_refl.
Qed.

Lemma step_char_fail ch x c :
  Input !! endIndex x ≠ Some ch → compile_fuel Input f (Char ch) x c = None.
Proof.
  intros H. cbn [compile_fuel]. unfold CharacterSetMatcher.
  destruct (Input !! endIndex x) as [ch'|]; [|done].
  destruct (ch =? ch') eqn:E; [|done]. apply N.eqb_eq in E as ->. done.
Qed.

(** Optional white space where there is none. *)
Lemma step_no_space x c ch :
  Input !! endIndex x = Some ch →
  isWhiteSpace ch || isLineTerminator ch = false →
  compile_fuel Input (S f) (Star WhiteSpace) x c = c x.
Proof.
  intros H Hws. cbn [compile_fuel RepeatMatcher capture_groups Nat.eqb].
  unfold CharacterSetMatcher at 1, clear_captures. cbn [foldr endIndex].
  by rewrite H, Hws.
Qed.

Lemma take_1_drop (a : nat) (ch : N) :
  Input !! a = Some ch → take 1 (drop a Input) = [ch].
Proof.
  intros H. rewrite <- (take_drop_middle Input a ch H) at 1.
  rewrite drop_app_length'; [done|].
  rewrite length_take. apply lookup_lt_Some in H. lia.
Qed.

Variables (q : N) (a : nat) (caps : list (option (nat * nat))).
Hypothesis Hq : q ≠ BACKSLASH.
Hypothesis Ha : Input !! a = Some q.
Hypothesis Hcaps : caps !! 1%nat = Some (Some (a, S a)).

(** One unit of quoted content that is neither the quote, nor a backslash,
    nor a line terminator. *)
Lemma step_content_unit e ch d z :
  Input !! e = Some ch →
  ch ≠ q → ch ≠ BACKSLASH → isLineTerminator ch = false →
  d (mkState (S e) caps) = Some z →
  compile_fuel Input f
    (Alt (Seq (NegLookahead (Alt (BackRef 1) (Char BACKSLASH))) AnyChar)
         (Seq (Char BACKSLASH) AnyChar)) (mkState e caps) d = Some z.
Proof.
  intros He Hne Hbs Hlt Hd. cbn [compile_fuel].
  unfold BackreferenceMatcher. cbn [captures endIndex]. rewrite Hcaps.
  replace (S a - a)%nat with 1%nat by lia.
  rewrite (take_1_drop a q Ha), (take_1_drop e ch He).
  rewrite bool_decide_eq_false_2 by (intros [_ [= ->]]; done).
  unfold CharacterSetMatcher at 1. cbn [endIndex]. rewrite He.
  apply N.eqb_neq in Hbs. rewrite (N.eqb_sym BACKSLASH ch), Hbs.
  unfold CharacterSetMatcher at 1. cbn [endIndex captures].
  by rewrite He, Hlt, Hd.
Qed.

(** At the closing quote the content cannot go on. *)
Lemma step_content_end e d :
  Input !! e = Some q →
  compile_fuel Input f
    (Alt (Seq (NegLookahead (Alt (BackRef 1) (Char BACKSLASH))) AnyChar)
         (Seq (Char BACKSLASH) AnyChar)) (mkState e caps) d = None.
Proof.
  intros He. cbn [compile_fuel].
  unfold BackreferenceMatcher. cbn [captures endIndex]. rewrite Hcaps.
  replace (S a - a)%nat with 1%nat by lia.
  rewrite (take_1_drop a q Ha), (take_1_drop e q He).
  rewrite bool_decide_eq_true_2.
  2:{ split; [|done]. apply lookup_lt_Some in He. lia. }
  unfold CharacterSetMatcher. cbn [endIndex]. rewrite He.
  apply not_eq_sym, N.eqb_neq in Hq. by rewrite Hq.
Qed.

Variables (e0 : nat) (k : jsstring).
Hypothesis Hk : ∀ j ch, k !! j = Some ch → Input !! (e0 + j)%nat = Some ch.
Hypothesis Hend : Input !! (e0 + length k)%nat = Some q.
Hypothesis Hplain :
  Forall (λ ch, ch ≠ q ∧ ch ≠ BACKSLASH ∧ isLineTerminator ch = false) k.

(** The greedy repetition takes the whole of [k] when what follows the
    pattern matches after it. *)
Lemma quoted_content_greedy c z :
  c (mkState (e0 + length k) caps) = Some z →
  ∀ n j fuel min,
    (j + n = length k)%nat → (n < fuel)%nat →
    (min = 0 ∨ (min = 1 ∧ 0 < n))%nat →
    RepeatMatcher fuel
      (compile_fuel Input f
         (Alt (Seq (NegLookahead (Alt (BackRef 1) (Char BACKSLASH))) AnyChar)
              (Seq (Char BACKSLASH) AnyChar)))
      min [] (mkState (e0 + j) caps) c = Some z.
Proof.
  intros Hc. induction n as [|n IH]; intros j fuel min Hj Hfuel Hmin.
  - destruct Hmin as [->|[_ ?]]; [|lia]. destruct fuel as [|fuel]; [lia|].
    cbn [RepeatMatcher Nat.eqb]. unfold clear_captures.
    cbn [foldr endIndex captures].
    rewrite step_content_end.
    + replace (e0 + j)%nat with (e0 + length k)%nat by lia. done.
    + replace (e0 + j)%nat with (e0 + length k)%nat by lia. done.
  - destruct fuel as [|fuel]; [lia|].
    destruct (k !! j) as [ch|] eqn:Hch.
    2:{ apply lookup_ge_None in Hch. lia. }
    pose proof (Hk j ch Hch) as He.
    rewrite Forall_forall in Hplain.
    destruct (Hplain ch) as (Hne & Hbs & Hlt).
    { by eapply list_elem_of_lookup_2. }
    cbn [RepeatMatcher]. unfold clear_captures.
    cbn [foldr endIndex captures].
    erewrite (step_content_unit (e0 + j) ch _ z He Hne Hbs Hlt).
    + by destruct (min =? 0)%nat.
    + cbn [endIndex].
      replace (S (e0 + j) =? e0 + j)%nat with false
        by (symmetry; apply Nat.eqb_neq; lia).
      rewrite andb_false_r.
      replace (S (e0 + j))%nat with (e0 + S j)%nat by lia.
      apply IH; [lia..|]. left. destruct Hmin as [->|[-> _]]; done.
Qed.

End FirstCall.

Section Literals.

Variable Input : jsstring.
Variable f : nat.

(** A run of literal units matches exactly where the input goes on with
    these units. *)
Lemma lit_units_spec cs : ∀ ch e caps c,
  compile_fuel Input f (lit_units ch cs) (mkState e caps) c
  = if bool_decide (take (S (length cs)) (drop e Input) = ch :: cs)
    then c (mkState (e + S (length cs)) caps) else None.
Proof.
  induction cs as [|c' cs IH]; intros ch e caps c; cbn [lit_units length].
  - cbn [compile_fuel]. unfold CharacterSetMatcher. cbn [endIndex captures].
    destruct (Input !! e) as [ch'|] eqn:He.
    + rewrite (take_1_drop Input e ch' He).
      replace (e + 1)%nat with (S e) by lia.
      destruct (ch =? ch') eqn:E.
      * apply N.eqb_eq in E as ->. by rewrite bool_decide_eq_true_2.
      * apply N.eqb_neq in E. rewrite bool_decide_eq_false_2; [done|].
        intros [= ->]. done.
    + apply lookup_ge_None in He. rewrite drop_ge by done.
      by rewrite bool_decide_eq_false_2.
  - cbn [compile_fuel]. unfold CharacterSetMatcher at 1. cbn [endIndex captures].
    destruct (Input !! e) as [ch'|] eqn:He.
    + rewrite (drop_S Input ch' e He). cbn [take].
      destruct (ch =? ch') eqn:E.
      * apply N.eqb_eq in E as ->. rewrite IH.
        replace (S e + S (length cs))%nat with (e + S (S (length cs)))%nat by lia.
        erewrite bool_decide_ext; [done|].
        split; [by intros ->|by intros [= ->]].
      * apply N.eqb_neq in E. rewrite bool_decide_eq_false_2; [done|].
        intros [= -> _]. done.
    + apply lookup_ge_None in He. rewrite drop_ge by done.
      by rewrite bool_decide_eq_false_2.
Qed.

(** The name of a call: two underscores, or [trans] where the two
    underscores do not match. *)
Lemma call_name_spec e caps c :
  compile_fuel Input f call_name (mkState e caps) c
  = match
      (if bool_decide (take 2 (drop e Input) = str "__")
       then c (mkState (e + 2) caps) else None)
    with
    | Some z => Some z
    | None =>
        if bool_decide (take 5 (drop e Input) = str "trans")
        then c (mkState (e + 5) caps) else None
    end.
Proof.
  unfold call_name. cbn [compile_fuel].
  change (lit "__") with (lit_units 95 [95]).
  change (lit "trans") with (lit_units 116 [114; 97; 110; 115]).
  by rewrite !lit_units_spec.
Qed.

End Literals.

Section CallShape.

Variable Input : jsstring.
Variable f : nat.

Lemma compile_fuel_Seq r1 r2 x c :
  compile_fuel Input f (Seq r1 r2) x c
  = compile_fuel Input f r1 x (λ y, compile_fuel Input f r2 y c).
Proof. reflexivity. Qed.

Lemma step_group_class n cs ch x c :
  Input !! endIndex x = Some ch → ch ∈ cs →
  compile_fuel Input f (Group n (Class cs)) x c
  = c (mkState (S (endIndex x))
         (<[n := Some (endIndex x, S (endIndex x))]> (captures x))).
Proof.
  intros H Hin. cbn [compile_fuel]. unfold CharacterSetMatcher.
  by rewrite H, bool_decide_eq_true_2.
Qed.

Lemma step_backref n a ch x c :
  captures x !! n = Some (Some (a, S a)) →
  Input !! a = Some ch → Input !! endIndex x = Some ch →
  compile_fuel Input f (BackRef n) x c
  = c (mkState (S (endIndex x)) (captures x)).
Proof.
  intros Hn Ha He. cbn [compile_fuel]. unfold BackreferenceMatcher. rewrite Hn.
  replace (S a - a)%nat with 1%nat by lia.
  rewrite (take_1_drop Input a ch Ha), (take_1_drop Input _ ch He).
  rewrite bool_decide_eq_true_2.
  - by replace (endIndex x + 1)%nat with (S (endIndex x)) by lia.
  - split; [|done]. apply lookup_lt_Some in He. lia.
Qed.

End CallShape.

Section AfterName.

Variable Input : jsstring.
Variables (p : nat) (q : N) (k : jsstring) (f : nat).
Hypothesis Hparen : Input !! p = Some 40.
Hypothesis Hopen : Input !! S p = Some q.
Hypothesis Hq : q ∈ [QUOTE; DQUOTE; BACKTICK].
Hypothesis Hk : ∀ j ch, k !! j = Some ch → Input !! (S (S p) + j)%nat = Some ch.
Hypothesis Hclose : Input !! (S (S p) + length k)%nat = Some q.
Hypothesis Hend : Input !! S (S (S p) + length k) = Some 41.
Hypothesis Hne : k ≠ [].
Hypothesis Hplain :
  Forall (λ ch, ch ≠ q ∧ ch ≠ BACKSLASH ∧ isLineTerminator ch = false) k.
Hypothesis Hf : (length k < S f)%nat.

Lemma quote_not_backslash : q ≠ BACKSLASH.
Proof.
  intros ->. repeat (apply elem_of_cons in Hq as [Hq|Hq]; [discriminate Hq|]).
  by apply elem_of_nil in Hq.
Qed.

Lemma quote_not_space : isWhiteSpace q || isLineTerminator q = false.
Proof.
  repeat (apply elem_of_cons in Hq as [->|Hq]; [reflexivity|]).
  by apply elem_of_nil in Hq.
Qed.

(** From the opening parenthesis on, the first pattern matches a quoted
    argument that holds no quote of its kind, no backslash and no line
    terminator, and captures it whole. *)
Lemma quoted_argument_matches :
  compile_fuel Input (S f)
    (Seqs [Char (chr "("); Star WhiteSpace;
           Group 1 (Class [QUOTE; DQUOTE; BACKTICK]);
           Group 2 quoted_content;
           BackRef 1; Star WhiteSpace; Char (chr ")")])
    (mkState p [None; None; None]) Some
  = Some (mkState (S (S (S (S p) + length k)))
            [None; Some (S p, S (S p));
             Some (S (S p), (S (S p) + length k)%nat)]).
Proof.
  unfold Seqs. cbn [foldr]. change (chr "(") with 40. change (chr ")") with 41.
  rewrite (compile_fuel_Seq _ _ (Char 40)), step_char by exact Hparen.
  cbn [endIndex captures].
  rewrite (compile_fuel_Seq _ _ (Star WhiteSpace)).
  rewrite (step_no_space _ _ _ _ q) by (exact Hopen || exact quote_not_space).
  rewrite (compile_fuel_Seq _ _ (Group 1 _)).
  rewrite (step_group_class _ _ _ _ q) by (exact Hopen || exact Hq).
  cbn [endIndex captures]. change (<[1%nat:=?v]> [None; None; None])
    with [None; v; None].
  rewrite (compile_fuel_Seq _ _ (Group 2 _)).
  unfold quoted_content.
  change (compile_fuel Input (S f) (Group 2 (Plus ?r)) ?x ?c)
    with (RepeatMatcher (S f) (compile_fuel Input (S f) r) 1 [] x
            (λ y, c (mkState (endIndex y)
                       (<[2%nat := Some (endIndex x, endIndex y)]> (captures y))))).
  replace (mkState (S (S p)) [None; Some (S p, S (S p)); None])
    with (mkState (S (S p) + 0) [None; Some (S p, S (S p)); None])
    by (f_equal; lia).
  apply (quoted_content_greedy Input (S f) q (S p)
           [None; Some (S p, S (S p)); None] quote_not_backslash Hopen
           eq_refl (S (S p)) k Hk Hclose Hplain _ _) with (n := length k);
    [|done|exact Hf|].
  2:{ right. split; [done|]. destruct k; [done|cbn; lia]. }
  cbn [endIndex captures].
  change (<[2%nat:=?v]> [None; ?u; None]) with [None; u; v].
  rewrite (compile_fuel_Seq _ _ (BackRef 1)).
  rewrite (step_backref _ _ _ (S p) q) by (reflexivity || exact Hopen || exact Hclose).
  cbn [endIndex captures].
  rewrite (compile_fuel_Seq _ _ (Star WhiteSpace)).
  rewrite (step_no_space _ _ _ _ 41) by (exact Hend || reflexivity).
  rewrite (compile_fuel_Seq _ _ (Char 41)), step_char by exact Hend.
  cbn [endIndex captures compile_fuel].
  by replace (S (S p) + 0)%nat with (S (S p)) by lia.
Qed.

End AfterName.

Section KeysKept.

Lemma add_match_keeps (keys : JsSet) (m : MatchArray) (k : jsstring) :
  k ∈ keys → k ∈ add_match keys m.
Proof.
  intros Hk. unfold add_match. destruct (captured_key m); [|done].
  destruct (_ && _); [|done]. apply Set_add_elem. by left.
Qed.

Lemma exec_loop_keeps rounds re (source : jsstring) (keys : JsSet) (k : jsstring) :
  k ∈ keys → k ∈ (exec_loop rounds re source keys).1.
Proof.
  revert re keys. induction rounds as [|rounds IH]; intros re keys Hk; [done|].
  cbn [exec_loop]. destruct (exec re source) as [[m|] re']; [|done].
  by apply IH, add_match_keeps.
Qed.

Lemma extractKeys_with_keeps res (source : jsstring) (keys : JsSet) (k : jsstring) :
  k ∈ keys → k ∈ (extractKeys_with res source keys).1.
Proof.
  revert keys. induction res as [|re res IH]; intros keys Hk; [done|].
  cbn [extractKeys_with].
  pose proof (exec_loop_keeps (S (length source)) re source keys k Hk) as H1.
  destruct (exec_loop _ re source keys) as [keys' re'].
  specialize (IH keys' H1).
  by destruct (extractKeys_with res source keys') as [keys'' res''].
Qed.

Lemma extractKeys_with_cons re res (source : jsstring) (keys : JsSet) :
  (extractKeys_with (re :: res) source keys).1
  = (extractKeys_with res source
       (exec_loop (S (length source)) re source keys).1).1.
Proof.
  cbn [extractKeys_with].
  destruct (exec_loop _ re source keys) as [keys' re']. cbn [fst].
  by destruct (extractKeys_with res source keys') as [keys'' res''].
Qed.

Lemma exec_loop_found rounds re re' (source : jsstring) (keys : JsSet) m :
  exec re source = (Some m, re') →
  exec_loop (S rounds) re source keys
  = exec_loop rounds re' source (add_match keys m).
Proof. intros H. cbn [exec_loop]. by rewrite H. Qed.

(** Start positions at which the pattern fails are passed over. *)
Lemma match_from_skip re (source : jsstring) n : ∀ s tries,
  (∀ i, (s ≤ i < s + n)%nat →
     compile source (pattern re)
       (mkState i (replicate (S (ngroups re)) None)) Some = None) →
  match_from re source (n + tries) s = match_from re source tries (s + n).
Proof.
  induction n as [|n IH]; intros s tries Hfail.
  - by replace (s + 0)%nat with s by lia.
  - cbn [Nat.add match_from]. rewrite Hfail by lia.
    rewrite IH; [f_equal; lia|]. intros i Hi. apply Hfail. lia.
Qed.

End KeysKept.

Section FirstCallFound.

Variables (pre name k post : jsstring) (q : N).
Hypothesis Hname :
  name = str "__" ∨ name = str "trans" ∨ name = str "@lang".
Hypothesis Hq : q ∈ [QUOTE; DQUOTE; BACKTICK].
Hypothesis Hpre : chr "(" ∉ pre.
Hypothesis Hne : k ≠ [].
Hypothesis Hplain :
  Forall (λ ch, ch ≠ q ∧ ch ≠ BACKSLASH ∧ isLineTerminator ch = false) k.

Let rest : jsstring := 40 :: q :: k ++ q :: 41 :: post.
Let source : jsstring := pre ++ name ++ rest.
Let p : nat := (length pre + length name)%nat.

Lemma source_after e : source !! (p + e)%nat = rest !! e.
Proof.
  unfold source, p. rewrite app_assoc, lookup_app_r; rewrite length_app; [|lia].
  f_equal. lia.
Qed.

Lemma source_before e : (e < p)%nat → source !! e ≠ Some 40.
Proof.
  unfold source, p. intros He. rewrite app_assoc, lookup_app_l
    by (rewrite length_app; lia).
  intros Hin%list_elem_of_lookup_2. apply elem_of_app in Hin as [Hin|Hin].
  - by apply Hpre.
  - destruct Hname as [->|[->| ->]];
      repeat (apply elem_of_cons in Hin as [Hin|Hin]; [discriminate Hin|]);
      by apply elem_of_nil in Hin.
Qed.

Lemma source_name : drop (length pre) source = name ++ rest.
Proof. unfold source. by rewrite drop_app_length. Qed.

Lemma source_argument :
  compile_fuel source (repeat_fuel source)
    (Seqs [Char (chr "("); Star WhiteSpace;
           Group 1 (Class [QUOTE; DQUOTE; BACKTICK]);
           Group 2 quoted_content;
           BackRef 1; Star WhiteSpace; Char (chr ")")])
    (mkState p [None; None; None]) Some
  = Some (mkState (S (S (S (S p) + length k)))
            [None; Some (S p, S (S p));
             Some (S (S p), (S (S p) + length k)%nat)]).
Proof.
  unfold repeat_fuel. apply quoted_argument_matches with (q := q); try done.
  - by rewrite <- (Nat.add_0_r p), source_after.
  - by replace (S p) with (p + 1)%nat by lia; rewrite source_after.
  - intros j ch Hj. replace (S (S p) + j)%nat with (p + S (S j))%nat by lia.
    rewrite source_after.
    change (rest !! S (S j)) with ((k ++ q :: 41 :: post) !! j).
    by apply lookup_app_l_Some.
  - replace (S (S p) + length k)%nat with (p + S (S (length k)))%nat by lia.
    rewrite source_after.
    change (rest !! S (S (length k))) with ((k ++ q :: 41 :: post) !! length k).
    by rewrite list_lookup_middle.
  - replace (S (S (S p) + length k)) with (p + S (S (S (length k))))%nat by lia.
    rewrite source_after.
    change (rest !! S (S (S (length k))))
      with ((k ++ q :: 41 :: post) !! S (length k)).
    rewrite (lookup_app_r k) by lia.
    by replace (S (length k) - length k)%nat with 1%nat by lia.
  - unfold source. rewrite !length_app. cbn. rewrite length_app. lia.
Qed.

(** The call is matched where it stands. *)
Lemma call_matches_here :
  name = str "__" ∨ name = str "trans" →
  compile source (pattern call_pattern)
    (mkState (length pre) [None; None; None]) Some
  = Some (mkState (S (S (S (S p) + length k)))
            [None; Some (S p, S (S p));
             Some (S (S p), (S (S p) + length k)%nat)]).
Proof.
  intros Hcall. unfold compile, call_pattern. cbn [pattern]. unfold Seqs.
  cbn [foldr]. rewrite compile_fuel_Seq, call_name_spec, source_name.
  pose proof source_argument as Harg. unfold p, Seqs in *. cbn [foldr] in Harg.
  clear Hname. destruct Hcall as [->| ->].
  - change (length (str "__")) with 2%nat in *.
    rewrite bool_decide_eq_true_2 by reflexivity. by rewrite Harg.
  - change (length (str "trans")) with 5%nat in *.
    rewrite bool_decide_eq_false_2 by discriminate.
    rewrite bool_decide_eq_true_2 by reflexivity. by rewrite Harg.
Qed.

Lemma take_drop_lookup (l l' : jsstring) (n e t : nat) ch :
  take n (drop e l) = l' → l' !! t = Some ch → l !! (e + t)%nat = Some ch.
Proof.
  intros <- Ht. apply lookup_take_Some in Ht as [Ht _].
  by rewrite lookup_drop in Ht.
Qed.

Lemma source_here : source !! length pre = name !! 0%nat.
Proof.
  unfold source. rewrite lookup_app_r by lia.
  replace (length pre - length pre)%nat with 0%nat by lia.
  destruct Hname as [->|[->| ->]]; done.
Qed.

Lemma name_length : (2 ≤ length name)%nat.
Proof. destruct Hname as [->|[->| ->]]; cbn; lia. Qed.

(** No call starts before it: up to the call there is no opening
    parenthesis for a name to stand in front of. *)
Lemma no_call_before i :
  name = str "__" ∨ name = str "trans" →
  (i < length pre)%nat →
  compile source (pattern call_pattern) (mkState i [None; None; None]) Some
  = None.
Proof.
  intros Hcall Hi. unfold compile, call_pattern. cbn [pattern]. unfold Seqs.
  cbn [foldr]. rewrite compile_fuel_Seq, call_name_spec.
  change (chr "(") with 40.
  rewrite !(compile_fuel_Seq _ _ (Char 40)).
  assert (Hp : (length pre + 2 ≤ p)%nat).
  { unfold p. pose proof name_length. lia. }
  rewrite (step_char_fail _ _ 40 (mkState (i + 2) _))
    by (apply source_before; cbn [endIndex]; lia).
  assert (Hcases : ∀ (b : bool) (o : option MatchState),
            o = None →
            match (if b then None else None) with
            | Some z => Some z
            | None => o
            end = None) by (by intros [] o ->).
  apply Hcases. clear Hcases.
  case_bool_decide as Ht; [|done].
  destruct (decide (i + 5 < p)%nat) as [Hlt|Hge].
  { by rewrite step_char_fail by (apply source_before; cbn [endIndex]; lia). }
  exfalso. unfold p in Hge. pose proof source_here as Hhere.
  clear Hname. destruct Hcall as [->| ->];
    [change (length (str "__")) with 2%nat in Hge
    |change (length (str "trans")) with 5%nat in Hge; lia].
  change (str "__" !! 0%nat) with (Some 95) in Hhere.
  assert (Hd : ∃ d, (d < 3)%nat ∧ length pre = (i + S d)%nat).
  { exists (length pre - i - 1)%nat. lia. }
  destruct Hd as (d & Hd & Hpos). rewrite Hpos in Hhere.
  destruct d as [|[|[|d]]]; [| | |lia].
  - by rewrite (take_drop_lookup _ _ _ _ 1 114 Ht eq_refl) in Hhere.
  - by rewrite (take_drop_lookup _ _ _ _ 2 97 Ht eq_refl) in Hhere.
  - by rewrite (take_drop_lookup _ _ _ _ 3 110 Ht eq_refl) in Hhere.
Qed.

Lemma source_key : substring source (S (S p)) (S (S p) + length k) = k.
Proof.
  unfold substring, source, p.
  replace (S (S (length pre + length name)) + length k
           - S (S (length pre + length name)))%nat with (length k) by lia.
  rewrite app_assoc.
  replace (S (S (length pre + length name)))
    with (length (pre ++ name) + 2)%nat by (rewrite length_app; lia).
  rewrite <- drop_drop, drop_app_length. unfold rest. cbn [drop].
  by rewrite drop_0, take_app_length.
Qed.

Lemma key_without_newline : includes k LF = false.
Proof.
  apply includes_false. intros Hin. rewrite Forall_forall in Hplain.
  by destruct (Hplain LF Hin) as (_ & _ & ?).
Qed.

Lemma key_without_backslash : unescapeString k = k.
Proof.
  assert (BACKSLASH ∉ k).
  { intros Hin. rewrite Forall_forall in Hplain.
    by destruct (Hplain BACKSLASH Hin) as (_ & ? & _). }
  unfold unescapeString. by do 3 rewrite (replace_pair_absent _ _ _ k) by done.
Qed.

(** The directive is matched where it stands, and not before. *)
Lemma lang_matches_here :
  name = str "@lang" →
  compile source (pattern lang_pattern)
    (mkState (length pre) [None; None; None]) Some
  = Some (mkState (S (S (S (S p) + length k)))
            [None; Some (S p, S (S p));
             Some (S (S p), (S (S p) + length k)%nat)]).
Proof.
  intros Hlang. unfold compile, lang_pattern. cbn [pattern]. unfold Seqs.
  cbn [foldr]. change (lit "@lang") with (lit_units 64 [108; 97; 110; 103]).
  rewrite compile_fuel_Seq, lit_units_spec, source_name.
  pose proof source_argument as Harg. unfold p, Seqs in *. cbn [foldr] in Harg.
  clear Hname. subst name. change (length (str "@lang")) with 5%nat in *.
  rewrite bool_decide_eq_true_2 by reflexivity. exact Harg.
Qed.

Lemma no_lang_before i :
  name = str "@lang" →
  (i < length pre)%nat →
  compile source (pattern lang_pattern) (mkState i [None; None; None]) Some
  = None.
Proof.
  intros Hlang Hi. unfold compile, lang_pattern. cbn [pattern]. unfold Seqs.
  cbn [foldr]. change (lit "@lang") with (lit_units 64 [108; 97; 110; 103]).
  rewrite compile_fuel_Seq, lit_units_spec. change (chr "(") with 40.
  case_bool_decide; [|done].
  rewrite (compile_fuel_Seq _ _ (Char 40)).
  rewrite step_char_fail; [done|]. apply source_before. unfold p.
  rewrite Hlang. cbn. lia.
Qed.

(** The first round of the loop of a pattern finds the call and adds its
    key to the keys found so far. *)
Lemma first_round re (keys : JsSet) :
  lastIndex re = 0%nat → ngroups re = 2%nat →
  (∀ i, (i < length pre)%nat →
     compile source (pattern re) (mkState i [None; None; None]) Some = None) →
  compile source (pattern re) (mkState (length pre) [None; None; None]) Some
  = Some (mkState (S (S (S (S p) + length k)))
            [None; Some (S p, S (S p));
             Some (S (S p), (S (S p) + length k)%nat)]) →
  ∃ m re', exec re source = (Some m, re') ∧ k ∈ add_match keys m.
Proof.
  intros Hlast Hgroups Hbefore Hhere. unfold exec. rewrite Hlast.
  replace (S (length source) - 0)%nat
    with (length pre + S (length source - length pre))%nat.
  2:{ unfold source. rewrite length_app. lia. }
  rewrite match_from_skip.
  2:{ intros i Hi. rewrite Hgroups. apply Hbefore. lia. }
  cbn [match_from Nat.add]. rewrite Hgroups.
  change (replicate 3 None) with [@None (nat * nat); None; None].
  rewrite Hhere.
  do 2 eexists. split; [done|].
  unfold add_match, captured_key. cbn [endIndex captures].
  change (<[0%nat:=?v]> [None; ?u; ?w]) with [v; u; w].
  cbn [map option_map lookup list_lookup]. rewrite source_key.
  rewrite bool_decide_eq_false_2 by done. rewrite key_without_newline.
  cbn [negb andb]. rewrite key_without_backslash.
  apply Set_add_elem. by right.
Qed.

Lemma first_call_found :
  name = str "__" ∨ name = str "trans" → k ∈ extractKeys source.
Proof.
  intros Hcall. unfold extractKeys, CALL_PATTERNS. rewrite extractKeys_with_cons.
  apply extractKeys_with_keeps.
  destruct (first_round call_pattern []) as (m & re' & Hex & Hm); [done..| | |].
  - intros i Hi. by apply no_call_before.
  - by apply call_matches_here.
  - rewrite (exec_loop_found _ _ _ _ _ _ Hex). by apply exec_loop_keeps.
Qed.

Lemma first_lang_found : name = str "@lang" → k ∈ extractKeys source.
Proof.
  intros Hlang. unfold extractKeys, CALL_PATTERNS.
  do 2 rewrite extractKeys_with_cons. apply extractKeys_with_keeps.
  destruct (first_round lang_pattern
              (exec_loop (S (length source)) call_pattern source []).1)
    as (m & re' & Hex & Hm); [done..| | |].
  - intros i Hi. by apply no_lang_before.
  - by apply lang_matches_here.
  - rewrite (exec_loop_found _ _ _ _ _ _ Hex). by apply exec_loop_keeps.
Qed.

End FirstCallFound.

(** X5. A call [__(...)] or [trans(...)] with a quoted argument is found
    wherever no opening parenthesis precedes it in the text (so it is the
    first call), when the argument holds no quote of its kind, no backslash
    and no line terminator: the argument is a key of the text as it stands. *)
Theorem extractKeys_finds_first_call (pre name k post : jsstring) (q : N) :
  name = str "__" ∨ name = str "trans" →
  q ∈ [QUOTE; DQUOTE; BACKTICK] →
  chr "(" ∉ pre →
  k ≠ [] →
  Forall (λ ch, ch ≠ q ∧ ch ≠ BACKSLASH ∧ isLineTerminator ch = false) k →
  k ∈ extractKeys (pre ++ name ++ str "(" ++ [q] ++ k ++ [q] ++ str ")" ++ post).
Proof.
  intros Hname Hq Hpre Hne Hplain. apply first_call_found; try done.
  destruct Hname as [->| ->]; auto.
Qed.

Lemma extractKeys_finds_first_call_witness :
  str "Hello, world" ∈
  extractKeys (str "<h1>{{ " ++ str "__" ++ str "(" ++ [QUOTE] ++ str "Hello, world"
               ++ [QUOTE] ++ str ")" ++ str " }}</h1>").
Proof.
  apply (extractKeys_finds_first_call (str "<h1>{{ ") (str "__")
           (str "Hello, world") (str " }}</h1>") QUOTE).
  - by left.
  - apply list_elem_of_here.
  - vm_compute. intros H.
    repeat (apply elem_of_cons in H as [H|H]; [discriminate H|]).
    by apply elem_of_nil in H.
  - discriminate.
  - repeat constructor; discriminate.
Defined.

(** X6. The same for the directive [@lang(...)]: where no opening parenthesis
    precedes it, its quoted argument without quote of its kind, backslash
    and line terminator is a key of the text. *)
Theorem extractKeys_finds_first_lang (pre k post : jsstring) (q : N) :
  q ∈ [QUOTE; DQUOTE; BACKTICK] →
  chr "(" ∉ pre →
  k ≠ [] →
  Forall (λ ch, ch ≠ q ∧ ch ≠ BACKSLASH ∧ isLineTerminator ch = false) k →
  k ∈ extractKeys (pre ++ str "@lang" ++ str "(" ++ [q] ++ k ++ [q] ++ str ")" ++ post).
Proof.
  intros Hq Hpre Hne Hplain. apply first_lang_found; try done. auto.
Qed.

Lemma extractKeys_finds_first_lang_witness :
  str "greet" ∈
  extractKeys (str "<p>" ++ str "@lang" ++ str "(" ++ [DQUOTE] ++ str "greet"
               ++ [DQUOTE] ++ str ")" ++ str "</p>").
Proof.
  apply (extractKeys_finds_first_lang (str "<p>") (str "greet") (str "</p>") DQUOTE).
  - apply list_elem_of_further, list_elem_of_here.
  - vm_compute. intros H.
    repeat (apply elem_of_cons in H as [H|H]; [discriminate H|]).
    by apply elem_of_nil in H.
  - discriminate.
  - repeat constructor; discriminate.
Defined.

Section JsonText.

Lemma hex_digit_printable n : 32 ≤ hex_digit n.
Proof. unfold hex_digit. destruct (n <? 10); lia. Qed.

Lemma quote_unit_printable c : Forall (λ u, 32 ≤ u) (quote_unit c).
Proof.
  unfold quote_unit, UnicodeEscape.
  repeat (match goal with
          | |- context [if ?b then _ else _] => destruct b eqn:?
          end;
          [repeat constructor; try apply hex_digit_printable; done|]).
  match goal with H : (_ || _ || _) = false |- _ =>
    apply orb_false_elim in H as [H _]; apply orb_false_elim in H as [H _];
    apply N.ltb_ge in H end.
  by repeat constructor.
Qed.

Lemma quote_units_cons2 c c2 (s : jsstring) :
  quote_units (c :: c2 :: s)
  = if isLeadingSurrogate c && isTrailingSurrogate c2
    then c :: c2 :: quote_units s
    else quote_unit c ++ quote_units (c2 :: s).
Proof. reflexivity. Qed.

Lemma quote_units_printable (s : jsstring) : Forall (λ u, 32 ≤ u) (quote_units s).
Proof.
  remember (length s) as n eqn:Hn.
  revert s Hn. induction (lt_wf n) as [n _ IH]. intros s ->.
  destruct s as [|c [|c2 s]]; [constructor|apply quote_unit_printable|].
  rewrite quote_units_cons2.
  destruct (isLeadingSurrogate c && isTrailingSurrogate c2) eqn:Hpair.
  - apply andb_true_iff in Hpair as [H1 H2]. unfold isLeadingSurrogate in H1.
    unfold isTrailingSurrogate in H2.
    apply andb_true_iff in H1 as [H1 _]. apply andb_true_iff in H2 as [H2 _].
    apply N.leb_le in H1, H2.
    constructor; [lia|]. constructor; [lia|].
    eapply IH; [|done]. cbn. lia.
  - apply Forall_app. split; [apply quote_unit_printable|].
    eapply IH; [|done]. cbn. lia.
Qed.

Lemma json_member_printable (o : LocaleMap) (k : jsstring) :
  Forall (λ u, 32 ≤ u) (json_member o k).
Proof.
  unfold json_member, QuoteJSONString.
  repeat (apply Forall_app; split);
    try apply quote_units_printable; by repeat constructor.
Qed.

Lemma filter_LF_printable (s : jsstring) :
  Forall (λ u, 32 ≤ u) s → filter (λ u, u = LF) s = [].
Proof.
  induction 1 as [|u s Hu _ IH]; [done|].
  rewrite filter_cons, decide_False; [done|]. unfold LF. lia.
Qed.

Lemma join_line_breaks (parts : list jsstring) :
  Forall (Forall (λ u, 32 ≤ u)) parts →
  length (filter (λ u, u = LF) (join (str "," ++ [LF]) parts))
  = (length parts - 1)%nat.
Proof.
  induction 1 as [|part parts Hp Hparts IH]; [done|].
  destruct parts as [|part' parts].
  - cbn [join]. by rewrite filter_LF_printable.
  - change (join ?sep (part :: part' :: parts))
      with (part ++ sep ++ join sep (part' :: parts)).
    rewrite !filter_app, !length_app.
    rewrite (filter_LF_printable part) by done. rewrite IH.
    cbn [length]. change (length (filter _ (str ","))) with 0%nat.
    change (length (filter (λ u, u = LF) [LF])) with 1%nat. lia.
Qed.

End JsonText.

(** X19. A quoted key or value holds no control character, so no line break:
    whatever the string, it stays on its line of the file. *)
Theorem QuoteJSONString_printable (s : jsstring) :
  Forall (λ u, 32 ≤ u) (QuoteJSONString s).
Proof.
  unfold QuoteJSONString.
  repeat (apply Forall_app; split);
    try apply quote_units_printable; by repeat constructor.
Qed.

(** X20. The written text has one line per entry between the line of the
    opening and the line of the closing brace, and ends with a line feed;
    the empty dictionary is the single line of the two braces. *)
Theorem serialize_line_count (obj : LocaleMap) :
  length (filter (λ u, u = LF) (serialize obj))
  = match serialized_keys obj with
    | [] => 1%nat
    | keys => (length keys + 2)%nat
    end.
Proof.
  unfold serialize, JSON_stringify, serialized_keys.
  destruct (OwnPropertyKeys (sorted_copy obj)) as [|k ks]; [done|].
  rewrite !filter_app, !length_app, join_line_breaks.
  - rewrite length_fmap.
    change (length (filter (λ u, u = LF) (str "{"))) with 0%nat.
    change (length (filter (λ u, u = LF) (str "}"))) with 0%nat.
    change (length (filter (λ u, u = LF) [LF])) with 1%nat.
    cbn [length]. lia.
  - apply Forall_fmap, Forall_forall. intros k' _. apply json_member_printable.
Qed.

Section CommandLine.

Lemma split_nonempty sep (s : jsstring) : split sep s ≠ [].
Proof.
  induction s as [|c s IH]; [done|]. cbn [split].
  destruct (c =? sep); [done|]. by destruct (split sep s).
Qed.

(** Joining what [split] returns gives the string back. *)
Lemma join_split sep (s : jsstring) : join [sep] (split sep s) = s.
Proof.
  induction s as [|c s IH]; [done|]. cbn [split].
  pose proof (split_nonempty sep s) as Hne.
  destruct (c =? sep) eqn:Hc.
  - apply N.eqb_eq in Hc as ->.
    destruct (split sep s) as [|w ws]; [done|].
    change (join [sep] ([] :: w :: ws)) with (sep :: join [sep] (w :: ws)).
    by rewrite IH.
  - destruct (split sep s) as [|w ws]; [done|].
    destruct ws as [|w' ws]; cbn [join] in *; by rewrite <- IH.
Qed.

Lemma split_app_sep sep (name v : jsstring) :
  sep ∉ name → split sep (name ++ sep :: v) = name :: split sep v.
Proof.
  induction name as [|c name IH]; intros Hsep.
  - cbn [app split]. by rewrite N.eqb_refl.
  - apply not_elem_of_cons in Hsep as [Hc Hsep]. cbn [app split].
    apply not_eq_sym, N.eqb_neq in Hc. rewrite Hc. by rewrite IH.
Qed.

Lemma getArg_skip (before args : list jsstring) (name : jsstring) :
  Forall (λ a, names_flag name a = false) before →
  getArg (before ++ args) name = getArg args name.
Proof.
  induction 1 as [|a before Ha _ IH]; [done|].
  cbn [app getArg]. by rewrite Ha.
Qed.

Lemma startsWith_app (s t : jsstring) : startsWith (s ++ t) s = true.
Proof.
  unfold startsWith. apply bool_decide_eq_true. by rewrite take_app_length.
Qed.

End CommandLine.

(** X21. [--flag=value]: the first argument that names the flag and carries an
    equals sign gives its value as it is written after the first equals
    sign, further equals signs included. *)
Theorem getArg_equals_form (before after : list jsstring) (name v : jsstring) :
  EQUALS ∉ name →
  Forall (λ a, names_flag name a = false) before →
  getArg (before ++ (name ++ [EQUALS] ++ v) :: after) name = ArgText v.
Proof.
  intros Hname Hbefore. rewrite getArg_skip by done. cbn [getArg].
  assert (names_flag name (name ++ [EQUALS] ++ v) = true) as ->.
  { unfold names_flag. rewrite app_assoc, startsWith_app. apply orb_true_r. }
  assert (includes (name ++ [EQUALS] ++ v) EQUALS = true) as ->.
  { destruct (includes _ EQUALS) eqn:H; [done|].
    apply includes_false in H. exfalso. apply H.
    rewrite elem_of_app. right. apply list_elem_of_here. }
  cbn [app]. rewrite split_app_sep by done. cbn [tail].
  by rewrite join_split.
Qed.

Lemma getArg_equals_form_witness :
  getArg [str "--dry"; str "--src" ++ [EQUALS] ++ str "a=b,c"] (str "--src")
  = ArgText (str "a=b,c").
Proof.
  apply (getArg_equals_form [str "--dry"] [] (str "--src") (str "a=b,c")).
  - vm_compute. intros H.
    repeat (apply elem_of_cons in H as [H|H]; [discriminate H|]).
    by apply elem_of_nil in H.
  - repeat constructor.
Defined.

(** X22. [--flag value]: when the first argument that names the flag is the bare
    flag, the next argument is its value unless it is missing, empty or
    starts with two dashes; then the flag stands for [true]. *)
Theorem getArg_space_form (before rest : list jsstring) (name : jsstring) :
  EQUALS ∉ name →
  Forall (λ a, names_flag name a = false) before →
  getArg (before ++ name :: rest) name
  = match rest with
    | next :: _ =>
        if bool_decide (next ≠ [] ∧ startsWith next (str "--") = false)
        then ArgText next else ArgTrue
    | [] => ArgTrue
    end.
Proof.
  intros Hname Hbefore. rewrite getArg_skip by done. cbn [getArg].
  assert (names_flag name name = true) as ->.
  { unfold names_flag. by rewrite bool_decide_eq_true_2. }
  assert (includes name EQUALS = false) as -> by by apply includes_false.
  destruct rest as [|next rest]; [done|].
  destruct (decide (next = [])) as [->|Hnext].
  - rewrite bool_decide_eq_true_2 by done. cbn [negb andb].
    by rewrite bool_decide_eq_false_2 by (by intros [? _]).
  - rewrite (bool_decide_eq_false_2 (next = [])) by done. cbn [negb andb].
    destruct (startsWith next (str "--")) eqn:Hs; cbn [negb].
    + by rewrite bool_decide_eq_false_2 by (by intros [_ ?]).
    + by rewrite bool_decide_eq_true_2.
Qed.

Lemma getArg_space_form_witness :
  getArg ([str "--dry"] ++ str "--locales" :: [str "en,fr"; str "--silent"])
         (str "--locales")
  = if bool_decide (str "en,fr" ≠ [] ∧ startsWith (str "en,fr") (str "--") = false)
    then ArgText (str "en,fr") else ArgTrue.
Proof.
  apply (getArg_space_form [str "--dry"] [str "en,fr"; str "--silent"]
           (str "--locales")).
  - vm_compute. intros H.
    repeat (apply elem_of_cons in H as [H|H]; [discriminate H|]).
    by apply elem_of_nil in H.
  - repeat constructor.
Defined.

(** X23. The dry-run flag takes any value for a yes.  When neither [-h] nor
    [--help] is among the arguments, so that the command line gets as far
    as reading its options, and [--dry=value] is the first argument that
    names the flag, the run is dry unless the value is empty; [--dry=false]
    is a dry run. *)
Theorem cli_dry_any_value (before after : list jsstring) (v : jsstring) :
  Forall (λ a, names_flag (str "--dry") a = false) before →
  str "-h" ∉ before ++ (str "--dry" ++ [EQUALS] ++ v) :: after →
  str "--help" ∉ before ++ (str "--dry" ++ [EQUALS] ++ v) :: after →
  ∃ opts, cli (before ++ (str "--dry" ++ [EQUALS] ++ v) :: after) = Some opts
    ∧ dry opts = negb (bool_decide (v = [])).
Proof.
  intros Hbefore Hh Hhelp. unfold cli, wants_help.
  rewrite !bool_decide_eq_false_2 by done. cbn [orb].
  eexists. split; [done|]. cbn [cli_options dry].
  rewrite (getArg_skip before) by done. cbn [getArg].
  assert (names_flag (str "--dry") (str "--dry" ++ [EQUALS] ++ v) = true) as ->.
  { unfold names_flag. rewrite app_assoc, startsWith_app. apply orb_true_r. }
  change (includes (str "--dry" ++ [EQUALS] ++ v) EQUALS) with true.
  change (str "--dry" ++ [EQUALS] ++ v) with (str "--dry" ++ EQUALS :: v).
  rewrite split_app_sep.
  - cbn [tail Boolean_of]. by rewrite join_split.
  - vm_compute. intros H.
    repeat (apply elem_of_cons in H as [H|H]; [discriminate H|]).
    by apply elem_of_nil in H.
Qed.

Lemma cli_dry_any_value_witness :
  ∃ opts,
    cli ([str "--silent"] ++ (str "--dry" ++ [EQUALS] ++ str "false") :: [])
    = Some opts
    ∧ dry opts = negb (bool_decide (str "false" = [])).
Proof.
  apply (cli_dry_any_value [str "--silent"] [] (str "false")).
  - repeat constructor.
  - intros H. repeat (apply elem_of_cons in H as [H|H]; [discriminate H|]).
    by apply elem_of_nil in H.
  - intros H. repeat (apply elem_of_cons in H as [H|H]; [discriminate H|]).
    by apply elem_of_nil in H.
Defined.

Lemma reconcile_key_set_witness :
  has_own (str "toString") [(str "x", str "X"); (str "a", str "a")] = true
  ↔ has_own (str "toString") [(str "x", str "X")] = true
    ∨ (str "toString" ∈ [str "a"; str "toString"]
       ∧ str "toString" ∉ Object_prototype_names).
Proof.
  apply (reconcile_key_set (str "en") copy [str "a"; str "toString"] [str "en"]
           (<[str "en" := [(str "x", str "X")]]> ∅)
           (mkScan (<[str "en" := [(str "x", str "X"); (str "a", str "a")]]> ∅) 1
                   (<[str "en" := 1%nat]> ∅))
           (str "en")).
  - vm_compute. reflexivity.
  - repeat constructor. vm_compute. eauto.
  - apply list_elem_of_here.
  - vm_compute. reflexivity.
  - vm_compute. reflexivity.
Defined.
